(** * The sign-up form of [src/App.tsx]: schema validation and the tech rows

    The program is one React component.  Its logic is
    - [createUserSchema], a zod object schema over the fields [name],
      [email], [password] and [techs], run through [zodResolver] when the
      form is submitted;
    - [isPasswordStrong], a regular expression tested against the password
      on every render;
    - [addNewTech] and the [remove] button, which grow and shrink the
      [techs] field array of react-hook-form;
    - [createUser], which prints the validated record into the output
      panel.

    A string is a sequence of UTF-16 code units, each a number.  White
    space and line terminators are those of the language.  The case
    mappings [toLocaleLowerCase], [toLocaleUpperCase] and [toLowerCase]
    depend on the Unicode tables of the engine and, for the first two, on
    the locale it runs in: they are taken as a parameter, the [Host],
    together with what every engine and every locale guarantees of them.

    The libraries are modelled by what their calls do here:
    - a zod string runs all its checks in order and collects their issues;
      [transform] runs only when its inner schema raised no issue, and an
      exception thrown inside it is not caught;
    - [zodResolver] turns the issues into field errors, the first issue of
      a path winning, and rethrows what is not a [ZodError];
    - [useFieldArray]'s [append] adds its argument behind the last row and
      [remove(index)] is [splice(index, 1)] on a copy of the rows. *)

From Stdlib Require Import Ascii String ZArith NArith Lia.
From stdpp Require Import base tactics option list countable gmap.

(** ** JavaScript strings *)

Abbreviation jsstring := (list N) (only parsing).

(** An ASCII literal of the source, ["john doe"], as a [jsstring]: one
    code unit for each of its characters. *)
Definition str (s : string) : jsstring := map N_of_ascii (list_ascii_of_string s).
Arguments str s%_string.

Definition space : N := 32.
Definition tab : N := 9.
Definition line_feed : N := 10.
Definition quote : N := 34.
Definition backslash : N := 92.
Definition no_break_space : N := 160.

Definition between (lo hi c : N) : bool := ((lo <=? c) && (c <=? hi))%N.

(** The character classes [[a-z]], [[A-Z]] and [[0-9]]. *)
Definition is_lower : N -> bool := between 97 122.
Definition is_upper : N -> bool := between 65 90.
Definition is_digit : N -> bool := between 48 57.

(** [[^A-Za-z0-9]] *)
Definition is_non_alnum (c : N) : bool :=
  negb (is_lower c || is_upper c || is_digit c).

(** The line terminators of the language: line feed, carriage return,
    line separator and paragraph separator.  The regular expression atom
    [.] refuses them. *)
Definition isLineTerminator (c : N) : bool :=
  ((c =? 10) || (c =? 13) || (c =? 0x2028) || (c =? 0x2029))%N.

(** What [trim] strips: the white space of the language (tab, vertical
    tab, form feed, the byte order mark and the space separators of
    Unicode, the no-break space among them) and the line terminators. *)
Definition isWhiteSpace (c : N) : bool :=
  ((c =? 9) || (c =? 11) || (c =? 12) || (c =? 32) || (c =? 160) ||
   (c =? 0x1680) || between 0x2000 0x200A c || (c =? 0x202F) ||
   (c =? 0x205F) || (c =? 0x3000) || (c =? 0xFEFF))%N
  || isLineTerminator c.

Fixpoint trimStart (s : jsstring) : jsstring :=
  match s with
  | [] => []
  | c :: r => if isWhiteSpace c then trimStart r else s
  end.

Fixpoint trimEnd (s : jsstring) : jsstring :=
  match s with
  | [] => []
  | c :: r =>
      match trimEnd r with
      | [] => if isWhiteSpace c then [] else [c]
      | r' => c :: r'
      end
  end.

Definition trim (s : jsstring) : jsstring := trimEnd (trimStart s).

(** [s.split(sep)] for a separator of one character: the pieces between
    the occurrences of [sep]; a string without [sep], the empty string
    included, is one piece. *)
Fixpoint split (sep : N) (s : jsstring) : list jsstring :=
  match s with
  | [] => [[]]
  | c :: r =>
      if decide (c = sep) then [] :: split sep r
      else match split sep r with
           | w :: ws => (c :: w) :: ws
           | [] => [[c]]
           end
  end.

(** [ws.join(sep)] *)
Fixpoint join (sep : jsstring) (ws : list jsstring) : jsstring :=
  match ws with
  | [] => []
  | [w] => w
  | w :: ws' => w ++ sep ++ join sep ws'
  end.

(** [s[0]]: the first code unit, [undefined] (here [None]) on the empty
    string. *)
Definition charAt0 (s : jsstring) : option N := head s.

(** [s.substring(start)] *)
Definition substring (start : nat) (s : jsstring) : jsstring := drop start s.

(** ** The host: case mappings

    The ASCII tables, which every engine shares. *)

Definition toLowerChar (c : N) : N := if is_upper c then (c + 32)%N else c.
Definition toUpperChar (c : N) : N := if is_lower c then (c - 32)%N else c.

(** ASCII text without the capital I, and ASCII text without the small
    i: the two letters that the Turkish, Azeri and Lithuanian locales
    map in their own way. *)
Definition plain_for_lower (s : jsstring) : bool :=
  forallb (fun c => (c <? 128)%N && negb (c =? 73)%N) s.
Definition plain_for_upper (s : jsstring) : bool :=
  forallb (fun c => (c <? 128)%N && negb (c =? 105)%N) s.
Definition ascii_text (s : jsstring) : bool := forallb (fun c => (c <? 128)%N) s.

(** The three case mappings of the engine the program runs on, with what
    holds of them on every engine and in every locale: on ASCII text they
    are the ASCII tables (for the two locale-sensitive ones, away from
    the letter I), white space has no case, and a non-empty string is
    never mapped to the empty one. *)
Record Host := {
  toLocaleLowerCase : jsstring -> jsstring;
  toLocaleUpperCase : jsstring -> jsstring;
  toLowerCase : jsstring -> jsstring;
  toLocaleLowerCase_ascii s :
    plain_for_lower s = true -> toLocaleLowerCase s = map toLowerChar s;
  toLocaleUpperCase_ascii s :
    plain_for_upper s = true -> toLocaleUpperCase s = map toUpperChar s;
  toLowerCase_ascii s :
    ascii_text s = true -> toLowerCase s = map toLowerChar s;
  toLocaleLowerCase_white s :
    forallb isWhiteSpace s = true -> toLocaleLowerCase s = s;
  toLocaleUpperCase_not_nil s : s <> [] -> toLocaleUpperCase s <> [];
  toLowerCase_not_nil s : s <> [] -> toLowerCase s <> []
}.

(** A host whose tables end with ASCII: the one the worked examples run
    on. *)
Definition ascii_host : Host.
Proof.
  refine {| toLocaleLowerCase := map toLowerChar;
            toLocaleUpperCase := map toUpperChar;
            toLowerCase := map toLowerChar |};
    try reflexivity; try (intros [|c s] H; done).
  intros s. induction s as [|c s IH]; [done|].
  cbn [forallb map]. intros [Hc Hs]%andb_true_iff.
  rewrite IH by done. f_equal.
  unfold toLowerChar. destruct (is_upper c) eqn:Hu; [|done].
  exfalso. revert Hc Hu.
  unfold isWhiteSpace, isLineTerminator, is_upper, between.
  rewrite !orb_true_iff, !andb_true_iff, !N.eqb_eq, !N.leb_le. lia.
Defined.

(** A host in a Turkic locale, as far as ASCII goes: the capital I lowers
    to the dotless small letter, the small i rises to the dotted
    capital, and the rest of ASCII maps by the tables.  It stands for
    such an engine on ASCII input only, and only the examples run on
    it. *)
Definition toLowerChar_tr (c : N) : N := if (c =? 73)%N then 0x131%N else toLowerChar c.
Definition toUpperChar_tr (c : N) : N := if (c =? 105)%N then 0x130%N else toUpperChar c.

Definition turkic_host : Host.
Proof.
  refine {| toLocaleLowerCase := map toLowerChar_tr;
            toLocaleUpperCase := map toUpperChar_tr;
            toLowerCase := map toLowerChar |};
    try reflexivity; try (intros [|c s] H; done).
  - intros s. induction s as [|c s IH]; [done|].
    cbn [plain_for_lower forallb map]. intros [Hc Hs]%andb_true_iff.
    rewrite IH by done. f_equal. unfold toLowerChar_tr.
    apply andb_true_iff in Hc as [_ Hc]. by destruct (c =? 73)%N.
  - intros s. induction s as [|c s IH]; [done|].
    cbn [plain_for_upper forallb map]. intros [Hc Hs]%andb_true_iff.
    rewrite IH by done. f_equal. unfold toUpperChar_tr.
    apply andb_true_iff in Hc as [_ Hc]. by destruct (c =? 105)%N.
  - intros s. induction s as [|c s IH]; [done|].
    cbn [forallb map]. intros [Hc Hs]%andb_true_iff.
    rewrite IH by done. f_equal.
    unfold toLowerChar_tr, toLowerChar.
    destruct (c =? 73)%N eqn:H73, (is_upper c) eqn:Hu; [| |exfalso|done];
      [exfalso|exfalso|]; revert Hc H73 Hu;
      unfold isWhiteSpace, isLineTerminator, is_upper, between;
      rewrite ?orb_true_iff, ?andb_true_iff, ?andb_false_iff, ?N.eqb_eq,
        ?N.eqb_neq, ?N.leb_le, ?N.leb_gt; lia.
Defined.

(** ** Exceptions *)

Inductive JsError := TypeError.

(** The outcome of evaluating an expression: a value, or an exception on
    its way up. *)
Inductive Completion (A : Type) : Type :=
  | Normal (a : A)
  | Throw (e : JsError).
Arguments Normal {A} a.
Arguments Throw {A} e.

#[global] Instance Completion_ret : MRet Completion := fun A a => Normal a.
#[global] Instance Completion_bind : MBind Completion := fun A B f m =>
  match m with
  | Normal a => f a
  | Throw e => Throw e
  end.

(** ** The password meter (lines 74-77)

    [new RegExp("(?=.*[a-z])(?=.*[A-Z])(?=.*[0-9])(?=.*[^A-Za-z0-9])(?=.{8,})")]
    is five lookaheads and nothing else; [test] looks for a position of the
    string at which all five succeed. *)

(** [(?=.*[cls])] at the head of [s]: some character of the class is
    reached from here by stepping over characters that [.] accepts. *)
Fixpoint lookahead_any (cls : N -> bool) (s : jsstring) : bool :=
  match s with
  | [] => false
  | c :: r => cls c || (negb (isLineTerminator c) && lookahead_any cls r)
  end.

(** [(?=.{n,})] at the head of [s]: the next [n] characters exist and [.]
    accepts each. *)
Fixpoint lookahead_dots (n : nat) (s : jsstring) : bool :=
  match n with
  | 0 => true
  | S n' =>
      match s with
      | [] => false
      | c :: r => negb (isLineTerminator c) && lookahead_dots n' r
      end
  end.

Definition strong_here (s : jsstring) : bool :=
  lookahead_any is_lower s && lookahead_any is_upper s &&
  lookahead_any is_digit s && lookahead_any is_non_alnum s &&
  lookahead_dots 8 s.

(** [RegExp.prototype.test] without flags: try every start position, from
    the left. *)
Fixpoint regexp_test (here : jsstring -> bool) (s : jsstring) : bool :=
  here s ||
  match s with
  | [] => false
  | _ :: r => regexp_test here r
  end.

Definition isPasswordStrong (userPassword : jsstring) : bool :=
  regexp_test strong_here userPassword.

(** ** The form data (line 53)

    [CreateUserData] is the type of the form's values and of the object the
    schema produces; the specification calls the latter [UserRecord]. *)

Record Tech := mkTech { title : jsstring }.

Record CreateUserData := mkData {
  name : jsstring;
  email : jsstring;
  password : jsstring;
  techs : list Tech
}.

(** ** zod issues and field errors *)

(** Where an issue lies: [name], [email], [password], [techs] or
    [techs.i.title]. *)
Inductive FieldPath :=
  | path_name
  | path_email
  | path_password
  | path_techs
  | path_tech_title (i : nat).

#[global] Instance FieldPath_eq_dec : EqDecision FieldPath.
Proof. solve_decision. Defined.

#[global] Instance FieldPath_countable : Countable FieldPath.
Proof.
  refine (inj_countable'
    (fun p => match p with
              | path_name => inl 0
              | path_email => inl 1
              | path_password => inl 2
              | path_techs => inl 3
              | path_tech_title i => inr i
              end)
    (fun x => match x with
              | inl 0 => path_name
              | inl 1 => path_email
              | inl 2 => path_password
              | inl _ => path_techs
              | inr i => path_tech_title i
              end) _).
  intros []; reflexivity.
Defined.

(** The seven messages of the schema. *)
Inductive Message :=
  | name_required
  | email_required
  | email_invalid
  | password_required
  | password_too_short
  | tech_title_required
  | techs_too_few.

Definition message_text (m : Message) : string :=
  match m with
  | name_required => "O nome é obrigatório"
  | email_required => "O e-mail é obrigatório"
  | email_invalid => "Formato de e-mail inválido"
  | password_required => "A senha é obrigatória"
  | password_too_short => "A senha precisa ter no mínimo 6 caracteres"
  | tech_title_required => "O nome da tecnologia é obrigatório"
  | techs_too_few => "Pelo menos 1 tecnologia devem ser informada."
  end%string.

(** The error kinds of the specification, and the kind each message
    stands for. *)
Inductive ErrorKind := EmptyField | InvalidFormat | TooShort | EmptyList.

#[global] Instance ErrorKind_eq_dec : EqDecision ErrorKind.
Proof. solve_decision. Defined.

Definition message_kind (m : Message) : ErrorKind :=
  match m with
  | name_required | email_required | password_required
  | tech_title_required => EmptyField
  | email_invalid => InvalidFormat
  | password_too_short => TooShort
  | techs_too_few => EmptyList
  end.

Inductive ZodIssueCode := too_small | invalid_string.

Record ZodIssue := mkIssue {
  issue_code : ZodIssueCode;
  issue_path : FieldPath;
  issue_message : Message
}.

(** What a schema hands back: the issues it raised and the (possibly
    transformed) value. *)
Definition ParseReturn (A : Type) : Type := (list ZodIssue * A)%type.

(** react-hook-form's [FieldError]: [{ type: issue.code, message }]. *)
Record FieldError := mkFieldError {
  error_type : ZodIssueCode;
  error_message : Message
}.

(** ** String and array checks of zod *)

(** [.min(n, { message })]; [.nonempty({ message })] is [.min(1, ...)]. *)
Definition check_min (n : nat) (p : FieldPath) (m : Message)
    (data : jsstring) : list ZodIssue :=
  if length data <? n then [mkIssue too_small p m] else [].

Definition check_nonempty : FieldPath -> Message -> jsstring -> list ZodIssue :=
  check_min 1.

(** ** The schema (lines 7-51) *)

(** [z.string().nonempty(..).min(6, ..)]: every check runs, in order. *)
Definition password_schema (data : jsstring) : ParseReturn jsstring :=
  (check_nonempty path_password password_required data ++
   check_min 6 path_password password_too_short data, data).

(** [z.object({ title: z.string().nonempty(..) })] at index [i]. *)
Definition tech_schema (i : nat) (data : Tech) : list ZodIssue :=
  check_nonempty (path_tech_title i) tech_title_required (title data).

(** [z.array(..).min(1, ..)]: the length check, then every element. *)
Definition techs_schema (data : list Tech) : ParseReturn (list Tech) :=
  ((if length data <? 1 then [mkIssue too_small path_techs techs_too_few]
    else []) ++ concat (imap tech_schema data), data).

(** [parseErrorSchema] of the resolver: the first issue of a path becomes
    the error of that field ([if (!errors[_path]) errors[_path] = ...]). *)
Definition record_issue (errors : gmap FieldPath FieldError) (issue : ZodIssue)
    : gmap FieldPath FieldError :=
  match errors !! issue_path issue with
  | Some _ => errors
  | None =>
      <[issue_path issue := mkFieldError (issue_code issue) (issue_message issue)]>
        errors
  end.

Definition parseErrorSchema (issues : list ZodIssue) : gmap FieldPath FieldError :=
  foldl record_issue ∅ issues.

(** What the resolver answers: the parsed values, or the field errors. *)
Inductive ResolverResult :=
  | Values (data : CreateUserData)
  | Errors (errors : gmap FieldPath FieldError).

Section Schema.

(** The engine the program runs on. *)
Variable h : Host.

(** zod's pattern for e-mail addresses.  The library is not part of the
    repository; its pattern is a parameter of the development. *)
Variable isEmail : jsstring -> bool.

(** The callback of [.map] on line 18:
    [word[0].toLocaleUpperCase().concat(word.substring(1))].  On the empty
    word [word[0]] is [undefined], and calling a method on it throws. *)
Definition capitalize (word : jsstring) : Completion jsstring :=
  match charAt0 word with
  | None => Throw TypeError
  | Some c => Normal (toLocaleUpperCase h [c] ++ substring 1 word)
  end.

(** The words the transform works on. *)
Definition name_words (name : jsstring) : list jsstring :=
  split space (trim (toLocaleLowerCase h name)).

(** The transform of lines 13-22. *)
Definition name_transform (name : jsstring) : Completion jsstring :=
  words ← mapM capitalize (name_words name);
  Normal (join [space] words).

(** [z.string().nonempty(..).transform(..)]: the transform runs only on a
    value that raised no issue. *)
Definition name_schema (data : jsstring) : Completion (ParseReturn jsstring) :=
  match check_nonempty path_name name_required data with
  | [] => value ← name_transform data; Normal ([], value)
  | issues => Normal (issues, data)
  end.

(** [.email({ message })] *)
Definition check_email (p : FieldPath) (m : Message) (data : jsstring)
    : list ZodIssue :=
  if isEmail data then [] else [mkIssue invalid_string p m].

(** [z.string().nonempty(..).email(..).toLowerCase()] *)
Definition email_schema (data : jsstring) : ParseReturn jsstring :=
  (check_nonempty path_email email_required data ++
   check_email path_email email_invalid data, toLowerCase h data).

(** [z.object({ name, email, password, techs })]: the fields are parsed
    in the order of the shape and their issues pile up. *)
Definition createUserSchema (data : CreateUserData)
    : Completion (ParseReturn CreateUserData) :=
  n ← name_schema (name data);
  let e := email_schema (email data) in
  let p := password_schema (password data) in
  let t := techs_schema (techs data) in
  Normal (n.1 ++ e.1 ++ p.1 ++ t.1, mkData n.2 e.2 p.2 t.2).

(** [zodResolver(createUserSchema)]: an exception that is not a
    [ZodError] is thrown on. *)
Definition validate (values : CreateUserData) : Completion ResolverResult :=
  parsed ← createUserSchema values;
  match parsed.1 with
  | [] => Normal (Values parsed.2)
  | issues => Normal (Errors (parseErrorSchema issues))
  end.

End Schema.

(** ** The tech rows (lines 79-86 and 183) *)

(** [Array.prototype.splice(start, 1)] on a copy: a negative [start]
    counts from the end, and a [start] past either end is clamped. *)
Definition splice1 {A} (start : Z) (l : list A) : list A :=
  let len := Z.of_nat (length l) in
  let from := if (start <? 0)%Z then Z.max (len + start) 0 else Z.min start len in
  delete (Z.to_nat from) l.

(** [useFieldArray]'s [append(value)], that is [[...fields, value]], and
    [remove(index)], that is [splice(index, 1)] on [[...fields]] (the rows
    are objects, so the library's [compact] drops none of them). *)
Definition append {A} (value : A) (fields : list A) : list A := fields ++ [value].
Definition remove {A} (index : Z) (fields : list A) : list A := splice1 index fields.

Definition set_techs (st : CreateUserData) (ts : list Tech) : CreateUserData :=
  mkData (name st) (email st) (password st) ts.

(** [addNewTech] (lines 84-86) and the handler of the remove button
    (line 183), on the form's values. *)
Definition addNewTech (st : CreateUserData) : CreateUserData :=
  set_techs st (append (mkTech []) (techs st)).

Definition removeTechRow (index : Z) (st : CreateUserData) : CreateUserData :=
  set_techs st (remove index (techs st)).

(** ** A concrete e-mail pattern for the worked examples

    Addresses of the shape [local@label.label...tld]: a non-empty local
    part of letters, digits and [_+-.], labels of letters, digits and [-],
    and a last label of two or more letters.  The theorems below hold for
    every pattern; the examples are run with this one. *)

Definition is_alnum (c : N) : bool := is_lower c || is_upper c || is_digit c.

Definition is_local_char (c : N) : bool :=
  is_alnum c || bool_decide (c ∈ str "_+-.").

Definition is_label (l : jsstring) : bool :=
  negb (bool_decide (l = [])) &&
  forallb (fun c => is_alnum c || bool_decide (c = 45%N)) l.

Definition is_tld (l : jsstring) : bool :=
  (2 <=? length l) && forallb (fun c => is_lower c || is_upper c) l.

Definition emailPattern (s : jsstring) : bool :=
  match split 64 s with
  | [local; domain] =>
      negb (bool_decide (local = [])) && forallb is_local_char local &&
      (2 <=? length (split 46 domain)) &&
      forallb is_label (split 46 domain) &&
      from_option is_tld false (last (split 46 domain))
  | _ => false
  end.

(** ** The vocabulary of the specification *)

(** A blank string: empty, or white space only. *)
Definition blank (s : jsstring) : bool := forallb isWhiteSpace s.

(** Title case as the specification words it: of every word delimited by
    white space, the first character uppercased and the remainder
    lowercased; [word] is the part of the current word read so far. *)
Definition spec_word (h : Host) (word : jsstring) : jsstring :=
  match word with
  | [] => []
  | c :: r => toLocaleUpperCase h [c] ++ toLocaleLowerCase h r
  end.

Fixpoint spec_titleCase_from (h : Host) (word s : jsstring) : jsstring :=
  match s with
  | [] => spec_word h word
  | c :: r =>
      if isWhiteSpace c then spec_word h word ++ c :: spec_titleCase_from h [] r
      else spec_titleCase_from h (word ++ [c]) r
  end.

Definition spec_titleCase (h : Host) (s : jsstring) : jsstring :=
  spec_titleCase_from h [] s.

(** The kind of error a validation run reports on a field, if any. *)
Definition reported (r : Completion ResolverResult) (p : FieldPath)
    : option ErrorKind :=
  match r with
  | Normal (Errors errors) => message_kind ∘ error_message <$> errors !! p
  | _ => None
  end.

(** The run came back, with the parsed values or with field errors. *)
Definition returns (r : Completion ResolverResult) : Prop :=
  ∃ res, r = Normal res.

(** The name survives the transform: it is empty (and the transform is
    not run), or none of its words is empty. *)
Definition name_accepted (h : Host) (name : jsstring) : Prop :=
  name = [] ∨ Forall (fun w => w ≠ []) (name_words h name).

(** The name as the transform writes it when every word is non-empty. *)
Definition capitalized (h : Host) (word : jsstring) : jsstring :=
  match word with
  | [] => []
  | c :: r => toLocaleUpperCase h [c] ++ r
  end.

Definition normalized_name (h : Host) (name : jsstring) : jsstring :=
  join [space] (map (capitalized h) (name_words h name)).


(** The first issue raised on a path. *)
Definition first_at (p : FieldPath) (issues : list ZodIssue) : option ZodIssue :=
  head (filter (fun i => issue_path i = p) issues).

Definition to_field_error (i : ZodIssue) : FieldError :=
  mkFieldError (issue_code i) (issue_message i).

(** All the issues of a run in which the name transform does not throw,
    and the values such a run parses. *)
Definition issues_of (h : Host) (isEmail : jsstring -> bool) (data : CreateUserData)
    : list ZodIssue :=
  check_nonempty path_name name_required (name data) ++
  (email_schema h isEmail (email data)).1 ++
  (password_schema (password data)).1 ++
  (techs_schema (techs data)).1.

Definition parsed_of (h : Host) (data : CreateUserData) : CreateUserData :=
  mkData (normalized_name h (name data)) (toLowerCase h (email data))
         (password data) (techs data).

(** The rules of the schema, all at once. *)
Definition well_formed (h : Host) (isEmail : jsstring -> bool)
    (data : CreateUserData) : Prop :=
  Forall (fun w => w ≠ []) (name_words h (name data)) ∧
  email data ≠ [] ∧
  isEmail (email data) = true ∧
  6 ≤ length (password data) ∧
  techs data ≠ [] ∧
  Forall (fun t => title t ≠ []) (techs data).

(** A name on which every host agrees: ASCII without the capital I, and
    no word of it begins with the small i. *)
Definition plain_name (name : jsstring) : bool :=
  plain_for_lower name &&
  forallb (fun w => plain_for_upper (take 1 w))
          (split space (trim (map toLowerChar name))).

(** Two separators in a row somewhere in a text. *)
Definition doubled (sep : N) (s : jsstring) : Prop :=
  ∃ a b, s = a ++ sep :: sep :: b.

(** ** The output panel (lines 56, 62-64 and 208-212)

    [createUser] stores [JSON.stringify(data, null, 2)] in the [output]
    state, which starts as the empty string and is shown when it is not
    empty.  [data] is the object the schema produced: its keys come in the
    order of the shape. *)

(** The two halves of a surrogate pair. *)
Definition is_leading : N -> bool := between 0xD800 0xDBFF.
Definition is_trailing : N -> bool := between 0xDC00 0xDFFF.

(** A lowercase hexadecimal digit. *)
Definition hex_digit (n : N) : N := (if n <? 10 then 48 + n else 87 + n)%N.

(** [\uxxxx] *)
Definition unicode_escape (c : N) : jsstring :=
  backslash :: 117%N ::
  [hex_digit (c / 4096 mod 16); hex_digit (c / 256 mod 16);
   hex_digit (c / 16 mod 16); hex_digit (c mod 16)]%N.

(** [QuoteJSONString] on one code point that is not a surrogate pair: the
    quote and the backslash get a backslash, the control characters their
    short escape or [\u00xx], and a surrogate that stands alone its
    [\udxxx]. *)
Definition json_escape (c : N) : jsstring :=
  if (c =? 8)%N then backslash :: str "b"
  else if (c =? 9)%N then backslash :: str "t"
  else if (c =? 10)%N then backslash :: str "n"
  else if (c =? 12)%N then backslash :: str "f"
  else if (c =? 13)%N then backslash :: str "r"
  else if (c =? 34)%N then [backslash; quote]
  else if (c =? 92)%N then [backslash; backslash]
  else if (c <? 32)%N || is_leading c || is_trailing c then unicode_escape c
  else [c].

(** The characters of a string, quoted one code point after the other: a
    leading surrogate with its trailing one is a code point of its own
    and is copied. *)
Fixpoint json_body (s : jsstring) : jsstring :=
  match s with
  | [] => []
  | c :: r =>
      match r with
      | d :: r' =>
          if is_leading c && is_trailing d then c :: d :: json_body r'
          else json_escape c ++ json_body r
      | [] => json_escape c
      end
  end.

Definition json_quote (s : jsstring) : jsstring := quote :: json_body s ++ [quote].

(** A key, its colon and the space the indentation asks for. *)
Definition json_key (k : string) : jsstring := quote :: str k ++ quote :: str ": ".

Definition indent (n : nat) : jsstring := replicate n space.

(** An element of [techs], at depth 2. *)
Definition json_tech (t : Tech) : jsstring :=
  str "{" ++ line_feed :: indent 6 ++ json_key "title" ++ json_quote (title t) ++
  line_feed :: indent 4 ++ str "}".

(** The array: [[]] when empty, else one element per block of lines. *)
Definition json_techs (ts : list Tech) : jsstring :=
  match ts with
  | [] => str "[]"
  | _ =>
      str "[" ++ line_feed :: indent 4 ++
      join (str "," ++ line_feed :: indent 4) (map json_tech ts) ++
      line_feed :: indent 2 ++ str "]"
  end.

(** [JSON.stringify(data, null, 2)] *)
Definition JSON_stringify (data : CreateUserData) : jsstring :=
  str "{" ++ line_feed :: indent 2 ++
  join (str "," ++ line_feed :: indent 2)
    [json_key "name" ++ json_quote (name data);
     json_key "email" ++ json_quote (email data);
     json_key "password" ++ json_quote (password data);
     json_key "techs" ++ json_techs (techs data)] ++
  line_feed :: str "}".

(** The value of a hexadecimal digit, and the code unit at the head of a
    quoted text, with the rest of the text: the reading that undoes the
    quoting, one code unit at a time. *)
Definition hex_value (c : N) : N := (if c <? 58 then c - 48 else c - 87)%N.

Definition json_unescape (s : jsstring) : option (N * jsstring) :=
  match s with
  | [] => None
  | c :: r =>
      if (c =? 92)%N then
        match r with
        | [] => None
        | e :: r' =>
            if (e =? 98)%N then Some (8%N, r')
            else if (e =? 116)%N then Some (9%N, r')
            else if (e =? 110)%N then Some (10%N, r')
            else if (e =? 102)%N then Some (12%N, r')
            else if (e =? 114)%N then Some (13%N, r')
            else if (e =? 117)%N then
              match r' with
              | a :: b :: c' :: d :: r'' =>
                  Some ((4096 * hex_value a + 256 * hex_value b +
                         16 * hex_value c' + hex_value d)%N, r'')
              | _ => None
              end
            else Some (e, r')
        end
      else if (c =? 34)%N then None
      else Some (c, r)
  end.

(** The string up to the closing quote, read back in at most [fuel]
    steps, and what follows the quote. *)
Fixpoint json_read (fuel : nat) (s : jsstring) : option (jsstring * jsstring) :=
  match fuel with
  | 0 => None
  | S fuel' =>
      match s with
      | [] => None
      | c :: r =>
          if (c =? 34)%N then Some ([], r)
          else
            match json_unescape s with
            | None => None
            | Some (x, s') =>
                match json_read fuel' s' with
                | None => None
                | Some (xs, rest) => Some (x :: xs, rest)
                end
            end
      end
  end.

(** The fixed text before and after a title, between two rows, and
    around the rows. *)
Definition tech_open : jsstring :=
  str "{" ++ line_feed :: indent 6 ++ json_key "title".
Definition tech_close : jsstring := line_feed :: indent 4 ++ str "}".
Definition tech_sep : jsstring := str "," ++ line_feed :: indent 4.
Definition techs_end : jsstring := line_feed :: indent 2 ++ str "]".
Definition techs_open : jsstring := str "[" ++ line_feed :: indent 4.

(** The fixed text around the four members of the record. *)
Definition json_open : jsstring := str "{" ++ line_feed :: indent 2 ++ json_key "name".
Definition json_email : jsstring := str "," ++ line_feed :: indent 2 ++ json_key "email".
Definition json_password : jsstring :=
  str "," ++ line_feed :: indent 2 ++ json_key "password".
Definition json_techs_key : jsstring :=
  str "," ++ line_feed :: indent 2 ++ json_key "techs".
Definition json_close : jsstring := line_feed :: str "}".



(** ** The component's state and its events

    The values of the form and the [output] state.  Typing sets a field,
    the two buttons add and remove a row, and submitting runs
    [handleSubmit(createUser)]: the resolver first, and [createUser] on
    the parsed values only when it reports no error. *)

Record AppState := mkApp {
  form : CreateUserData;
  output : jsstring
}.

Definition createUser (data : CreateUserData) (st : AppState) : AppState :=
  mkApp (form st) (JSON_stringify data).

Inductive Event :=
  | TypeName (s : jsstring)
  | TypeEmail (s : jsstring)
  | TypePassword (s : jsstring)
  | TypeTitle (i : nat) (s : jsstring)
  | ClickAdd
  | ClickRemove (i : nat)
  | Submit.

Definition edit (f : CreateUserData -> CreateUserData) (st : AppState) : AppState :=
  mkApp (f (form st)) (output st).

(** What an event does to the values of the form.  A title is typed in
    a row that is on the screen; at an index past the rows the values
    stay as they are. *)
Definition edit_form (e : Event) (d : CreateUserData) : CreateUserData :=
  match e with
  | TypeName s => mkData s (email d) (password d) (techs d)
  | TypeEmail s => mkData (name d) s (password d) (techs d)
  | TypePassword s => mkData (name d) (email d) s (techs d)
  | TypeTitle i s => set_techs d (<[i := mkTech s]> (techs d))
  | ClickAdd => addNewTech d
  | ClickRemove i => removeTechRow (Z.of_nat i) d
  | Submit => d
  end.

Section Component.

Variable h : Host.
Variable isEmail : jsstring -> bool.

Definition handleSubmit (st : AppState) : Completion AppState :=
  result ← validate h isEmail (form st);
  match result with
  | Values data => Normal (createUser data st)
  | Errors _ => Normal st
  end.

(** One event.  A submission in which the resolver throws rejects its
    promise and leaves the state as it was. *)
Definition step (st : AppState) (e : Event) : AppState :=
  match e with
  | Submit =>
      match handleSubmit st with
      | Normal st' => st'
      | Throw _ => st
      end
  | _ => edit (edit_form e) st
  end.

Definition run (st : AppState) (es : list Event) : AppState :=
  foldl step st es.

(** No submission of the run validates: at every [Submit] among the
    events the resolver reports errors or throws. *)
Definition rejected_throughout (st : AppState) (es : list Event) : Prop :=
  ∀ pre post, es = pre ++ Submit :: post →
    ∀ r, validate h isEmail (form (run st pre)) ≠ Normal (Values r).

End Component.

(** ** Worked inputs *)

(** The example of the specification, and its record. *)
Definition john_doe : CreateUserData :=
  mkData (str "john doe") (str "JOHN@EXAMPLE.COM") (str "secret1")
         [mkTech (str "Go")].

Definition John_Doe : CreateUserData :=
  mkData (str "John Doe") (str "john@example.com") (str "secret1")
         [mkTech (str "Go")].

(** The same with a tab between the two words of the name. *)
Definition john_tab_doe : CreateUserData :=
  mkData (str "john" ++ tab :: str "doe") (str "JOHN@EXAMPLE.COM")
         (str "secret1") [mkTech (str "Go")].

(** The same with two spaces between the two words. *)
Definition john_space_space_doe : CreateUserData :=
  mkData (str "john  doe") (str "JOHN@EXAMPLE.COM") (str "secret1")
         [mkTech (str "Go")].



(** A name of one space, and a name of one no-break space. *)
Definition space_name : CreateUserData :=
  mkData (str " ") (str "john@example.com") (str "secret1") [mkTech (str "Go")].

Definition no_break_space_name : CreateUserData :=
  mkData [no_break_space] (str "john@example.com") (str "secret1")
         [mkTech (str "Go")].

(** A password of three letters, and one of three spaces. *)
Definition short_password : CreateUserData :=
  mkData (str "john") (str "john@example.com") (str "abc") [mkTech (str "Go")].

Definition spaces_password : CreateUserData :=
  mkData (str "john") (str "john@example.com") (str "   ") [mkTech (str "Go")].

(** Rows with an empty title, and a row whose title is one space. *)
Definition empty_titles : CreateUserData :=
  mkData (str "john") (str "john@example.com") (str "secret1")
         [mkTech (str "Go"); mkTech []; mkTech (str "Rust"); mkTech []].

Definition space_title : CreateUserData :=
  mkData (str "john") (str "john@example.com") (str "secret1")
         [mkTech (str " ")].

Definition two_rows : CreateUserData :=
  mkData (str "john") (str "john@example.com") (str "secret1")
         [mkTech (str "Go"); mkTech (str "Rust")].

(** A second row with an empty title beside a first one with a title. *)
Definition second_title_empty : CreateUserData :=
  mkData (str "john doe") (str "JOHN@EXAMPLE.COM") (str "secret1")
         [mkTech (str "Go"); mkTech []].


Definition two_spaces_no_password : CreateUserData :=
  mkData (str "john  doe") (str "john@example.com") [] [mkTech (str "Go")].

Definition two_spaces_no_techs : CreateUserData :=
  mkData (str "john  doe") (str "john@example.com") (str "secret1") [].

(** An e-mail without its at sign. *)
Definition not_an_email : CreateUserData :=
  mkData (str "john") (str "not-an-email") (str "secret1") [mkTech (str "Go")].


(** A form before any output, and a session: a submission that succeeds,
    one that fails on the title of a new row, one that succeeds with two
    rows, one that throws on the name, and one that fails on the
    password. *)
Definition fresh_form : AppState := mkApp john_doe [].

Definition session : list Event :=
  [Submit; ClickAdd; Submit; TypeTitle 1 (str "Rust"); Submit;
   TypeName (str "john  doe"); Submit; ClickRemove 0;
   TypeName (str "john"); TypePassword (str "abc"); Submit].

Definition John_Doe_Go_Rust : CreateUserData :=
  mkData (str "John Doe") (str "john@example.com") (str "secret1")
         [mkTech (str "Go"); mkTech (str "Rust")].

(** * Properties *)

(** ** The password meter *)







(** ** The name transform *)

Lemma split_not_nil sep s : split sep s ≠ [].
Proof.
  destruct s as [|c r]; simpl; [done|].
  case_decide; [done|]. by destruct (split sep r).
Qed.

Lemma join_not_nil sep w ws : w ≠ [] → join sep (w :: ws) ≠ [].
Proof.
  intros Hw. destruct ws as [|w' ws]; cbn [join]; [done|].
  by destruct w.
Qed.

Section Transform.

Variable h : Host.

Lemma capitalize_cons c r :
  capitalize h (c :: r) = Normal (capitalized h (c :: r)).
Proof. reflexivity. Qed.

Lemma mapM_capitalize_Normal ws :
  Forall (fun w => w ≠ []) ws →
  mapM (capitalize h) ws = Normal (map (capitalized h) ws).
Proof.
  induction 1 as [|w ws Hw _ IH]; [done|].
  destruct w as [|c r]; [done|].
  cbn [mapM]. rewrite capitalize_cons. cbn. by rewrite IH.
Qed.

Lemma mapM_capitalize_Throw ws :
  ¬ Forall (fun w => w ≠ []) ws → mapM (capitalize h) ws = Throw TypeError.
Proof.
  induction ws as [|w ws IH]; intros Hws.
  - by destruct Hws.
  - destruct w as [|c r]; [done|].
    cbn [mapM]. rewrite capitalize_cons. cbn. rewrite IH; [done|].
    intros Hr. apply Hws. by constructor.
Qed.

Lemma name_transform_Normal n :
  Forall (fun w => w ≠ []) (name_words h n) →
  name_transform h n = Normal (normalized_name h n).
Proof.
  intros Hw. unfold name_transform. by rewrite mapM_capitalize_Normal.
Qed.

Lemma name_transform_Throw n :
  ¬ Forall (fun w => w ≠ []) (name_words h n) →
  name_transform h n = Throw TypeError.
Proof.
  intros Hw. unfold name_transform. by rewrite mapM_capitalize_Throw.
Qed.

(** Lowercasing the empty string gives the empty string, whose only word
    is empty. *)
Lemma name_words_nil : ¬ Forall (fun w => w ≠ []) (name_words h []).
Proof.
  unfold name_words. rewrite (toLocaleLowerCase_white h) by done.
  intros Hw. by inversion Hw.
Qed.

Lemma capitalized_not_nil w : w ≠ [] → capitalized h w ≠ [].
Proof.
  destruct w as [|c r]; [done|]. intros _. cbn [capitalized].
  pose proof (toLocaleUpperCase_not_nil h [c]) as Hc.
  destruct (toLocaleUpperCase h [c]); [by destruct Hc|done].
Qed.

Lemma normalized_name_not_nil n :
  Forall (fun w => w ≠ []) (name_words h n) → normalized_name h n ≠ [].
Proof.
  unfold normalized_name. intros Hw.
  destruct (name_words h n) as [|w ws] eqn:Hn.
  - by destruct (split_not_nil space (trim (toLocaleLowerCase h n))).
  - cbn [map]. apply join_not_nil, capitalized_not_nil.
    by apply Forall_inv in Hw.
Qed.

(** ** How a run of the resolver unfolds *)

Variable isEmail : jsstring -> bool.

Lemma validate_accepted data :
  name_accepted h (name data) →
  validate h isEmail data =
    Normal match issues_of h isEmail data with
           | [] => Values (parsed_of h data)
           | issues => Errors (parseErrorSchema issues)
           end.
Proof.
  unfold validate, createUserSchema, issues_of, parsed_of, name_schema.
  destruct data as [n e p t]; cbn [name email password techs].
  destruct n as [|c r]; intros [Hn|Hn].
  - reflexivity.
  - by destruct (name_words_nil Hn).
  - discriminate.
  - cbn [check_nonempty check_min length Nat.ltb Nat.leb app].
    rewrite name_transform_Normal by done.
    unfold mbind, Completion_bind; cbn [fst snd app].
    by destruct (_ ++ _).
Qed.

Lemma validate_rejected_name data :
  name data ≠ [] →
  ¬ Forall (fun w => w ≠ []) (name_words h (name data)) →
  validate h isEmail data = Throw TypeError.
Proof.
  unfold validate, createUserSchema, name_schema.
  destruct data as [[|c r] e p t]; cbn [name]; intros Hn Hw; [done|].
  cbn [check_nonempty check_min length Nat.ltb Nat.leb].
  by rewrite name_transform_Throw.
Qed.

Lemma validate_returns_iff data :
  returns (validate h isEmail data) ↔ name_accepted h (name data).
Proof.
  split.
  - intros [res Hres]. unfold name_accepted.
    destruct (decide (name data = [])) as [|Hn]; [by left|right].
    destruct (decide (Forall (fun w => w ≠ []) (name_words h (name data))))
      as [|Hw]; [done|].
    by rewrite validate_rejected_name in Hres.
  - intros Hn. rewrite validate_accepted by done. by eexists.
Qed.

Lemma validate_Throw data e :
  validate h isEmail data = Throw e ↔
  e = TypeError ∧ name data ≠ [] ∧
  ¬ Forall (fun w => w ≠ []) (name_words h (name data)).
Proof.
  split.
  - intros Hv. destruct e.
    destruct (decide (name data = [])) as [Hn|Hn].
    { rewrite validate_accepted in Hv by (by left). done. }
    destruct (decide (Forall (fun w => w ≠ []) (name_words h (name data))))
      as [Hw|Hw]; [|done].
    rewrite validate_accepted in Hv by (by right). done.
  - intros (-> & Hn & Hw). by apply validate_rejected_name.
Qed.

End Transform.

(** ** Field errors: the first issue of each path *)

Lemma foldl_record_issue_lookup issues errors p :
  foldl record_issue errors issues !! p =
    match errors !! p with
    | Some e => Some e
    | None => to_field_error <$> first_at p issues
    end.
Proof.
  revert errors.
  induction issues as [|i issues IH]; intros errors; cbn [foldl].
  - unfold first_at; simpl. by destruct (errors !! p).
  - rewrite IH. unfold record_issue, first_at. rewrite filter_cons.
    destruct (errors !! issue_path i) eqn:Hi.
    + case_decide; subst; [by rewrite Hi|done].
    + case_decide; subst.
      * by rewrite lookup_insert_eq, Hi.
      * by rewrite lookup_insert_ne.
Qed.

Lemma parseErrorSchema_lookup issues p :
  parseErrorSchema issues !! p = to_field_error <$> first_at p issues.
Proof.
  unfold parseErrorSchema.
  by rewrite foldl_record_issue_lookup, lookup_empty.
Qed.

Lemma first_at_app p l1 l2 :
  first_at p (l1 ++ l2) =
    match first_at p l1 with
    | Some i => Some i
    | None => first_at p l2
    end.
Proof.
  unfold first_at. rewrite filter_app.
  by destruct (filter _ l1).
Qed.

Lemma first_at_check_min n q m d p :
  first_at p (check_min n q m d) =
    if decide (q = p)
    then (if length d <? n then Some (mkIssue too_small q m) else None)
    else None.
Proof.
  unfold first_at, check_min.
  destruct (length d <? n); [|by case_decide].
  rewrite filter_cons; cbn [issue_path]. by case_decide.
Qed.

Lemma filter_tech_rows i k (data : list Tech) :
  filter (fun x => issue_path x = path_tech_title i)
         (concat (imap (fun j => tech_schema (k + j)) data)) =
    if decide (k ≤ i)
    then from_option (tech_schema i) [] (data !! (i - k))
    else [].
Proof.
  revert k. induction data as [|t data IH]; intros k.
  - by case_decide.
  - rewrite imap_cons. cbn [concat]. rewrite filter_app.
    rewrite (imap_ext _ (fun j => tech_schema (S k + j))), IH
      by (intros; cbn; f_equal; lia).
    replace (k + 0) with k by lia.
    assert (filter (fun x => issue_path x = path_tech_title i) (tech_schema k t)
            = if decide (k = i) then tech_schema k t else []) as ->.
    { unfold tech_schema, check_nonempty, check_min.
      destruct (_ <? _); [|by case_decide].
      rewrite filter_cons; cbn [issue_path].
      repeat case_decide; simplify_eq; done. }
    destruct (decide (k = i)) as [->|Hne].
    + rewrite Nat.sub_diag. cbn.
      rewrite decide_False, decide_True by lia. apply app_nil_r.
    + destruct (decide (S k ≤ i)) as [Hle|Hgt].
      * rewrite decide_True by lia.
        by replace (i - k) with (S (i - S k)) by lia.
      * by rewrite decide_False by lia.
Qed.

Lemma first_at_tech_rows i (data : list Tech) :
  first_at (path_tech_title i) (concat (imap tech_schema data)) =
    t ← data !! i;
    if length (title t) <? 1
    then Some (mkIssue too_small (path_tech_title i) tech_title_required)
    else None.
Proof.
  unfold first_at.
  change (imap tech_schema data) with (imap (fun j => tech_schema (0 + j)) data).
  rewrite filter_tech_rows, decide_True, Nat.sub_0_r by lia.
  destruct (data !! i) as [t|]; [|done]. cbn.
  unfold tech_schema, check_nonempty, check_min.
  by destruct (title t).
Qed.

Lemma first_at_tech_rows_other p (data : list Tech) :
  (∀ i, p ≠ path_tech_title i) →
  first_at p (concat (imap tech_schema data)) = None.
Proof.
  intros Hp. unfold first_at.
  assert (∀ k, filter (fun x => issue_path x = p)
                 (concat (imap (fun j => tech_schema (k + j)) data)) = [])
    as H.
  { induction data as [|t data IH]; intros k; [done|].
    rewrite imap_cons. cbn [concat]. rewrite filter_app.
    rewrite (imap_ext _ (fun j => tech_schema (S k + j))), IH
      by (intros; cbn; f_equal; lia).
    unfold tech_schema, check_nonempty, check_min.
    destruct (_ <? _); [|done].
    rewrite filter_cons; cbn [issue_path].
    rewrite decide_False; [done|]. intros <-. by eapply Hp. }
  change (imap tech_schema data) with (imap (fun j => tech_schema (0 + j)) data).
  by rewrite H.
Qed.

Lemma tech_rows_nil (data : list Tech) :
  Forall (fun t => title t ≠ []) data → concat (imap tech_schema data) = [].
Proof.
  intros Hd.
  assert (∀ k, concat (imap (fun j => tech_schema (k + j)) data) = []) as H.
  { induction Hd as [|t data Ht _ IH]; intros k; [done|].
    rewrite imap_cons. cbn [concat].
    rewrite (imap_ext _ (fun j => tech_schema (S k + j))), IH
      by (intros; cbn; f_equal; lia).
    unfold tech_schema, check_nonempty, check_min.
    by destruct (title t). }
  exact (H 0).
Qed.

Lemma tech_rows_nil_inv (data : list Tech) :
  concat (imap tech_schema data) = [] → Forall (fun t => title t ≠ []) data.
Proof.
  intros Hnil. apply Forall_lookup_2. intros i t Hi Ht.
  pose proof (first_at_tech_rows i data) as H.
  rewrite Hnil, Hi in H. cbn in H. by rewrite Ht in H.
Qed.

(** ** What a run reports on each field *)

Section Reports.

Variable h : Host.
Variable isEmail : jsstring -> bool.

Lemma first_at_check_email q m d p :
  first_at p (check_email isEmail q m d) =
    if decide (q = p)
    then (if isEmail d then None else Some (mkIssue invalid_string q m))
    else None.
Proof.
  unfold first_at, check_email.
  destruct (isEmail d); [by case_decide|].
  rewrite filter_cons; cbn [issue_path]. by case_decide.
Qed.

Lemma reported_accepted data p :
  name_accepted h (name data) →
  reported (validate h isEmail data) p =
    message_kind ∘ issue_message <$> first_at p (issues_of h isEmail data).
Proof.
  intros Hn. rewrite validate_accepted by done.
  destruct (issues_of h isEmail data) as [|i issues] eqn:Hi; [done|].
  cbn [reported]. rewrite parseErrorSchema_lookup.
  by destruct (first_at p (i :: issues)).
Qed.

Ltac first_issue :=
  unfold issues_of, email_schema, password_schema, techs_schema,
    check_nonempty;
  cbn [fst];
  rewrite ?first_at_app, ?first_at_check_min, ?first_at_check_email,
    ?first_at_tech_rows_other by done.

Ltac settle :=
  cbn [length Nat.ltb Nat.leb first_at filter head list_filter];
  repeat match goal with
         | |- context [decide ?P] => destruct (decide P); simplify_eq
         | |- context [if ?b then _ else _] => destruct b eqn:?
         end;
  try done.

Lemma reported_name data :
  name_accepted h (name data) →
  reported (validate h isEmail data) path_name =
    if decide (name data = []) then Some EmptyField else None.
Proof.
  intros Hn. rewrite reported_accepted by done. first_issue.
  destruct (name data), (techs data); settle.
Qed.

Lemma reported_email data :
  name_accepted h (name data) →
  reported (validate h isEmail data) path_email =
    if decide (email data = []) then Some EmptyField
    else if isEmail (email data) then None else Some InvalidFormat.
Proof.
  intros Hn. rewrite reported_accepted by done. first_issue.
  destruct (email data), (techs data); settle.
Qed.

Lemma reported_password data :
  name_accepted h (name data) →
  reported (validate h isEmail data) path_password =
    if decide (password data = []) then Some EmptyField
    else if length (password data) <? 6 then Some TooShort else None.
Proof.
  intros Hn. rewrite reported_accepted by done. first_issue.
  destruct (password data), (techs data); settle.
Qed.

Lemma reported_techs data :
  name_accepted h (name data) →
  reported (validate h isEmail data) path_techs =
    if decide (techs data = []) then Some EmptyList else None.
Proof.
  intros Hn. rewrite reported_accepted by done. first_issue.
  destruct (techs data); settle.
Qed.

Lemma reported_tech_title data i :
  name_accepted h (name data) →
  reported (validate h isEmail data) (path_tech_title i) =
    t ← techs data !! i;
    if decide (title t = []) then Some EmptyField else None.
Proof.
  intros Hn. rewrite reported_accepted by done. first_issue.
  rewrite first_at_tech_rows.
  destruct (techs data) as [|t0 ts]; settle.
  destruct ((t0 :: ts) !! i) as [t|]; [|done]. cbn.
  by destruct (title t).
Qed.

(** ** Success, failure and the rules *)

Lemma issues_of_nil data :
  issues_of h isEmail data = [] ↔
  name data ≠ [] ∧ email data ≠ [] ∧ isEmail (email data) = true ∧
  6 ≤ length (password data) ∧ techs data ≠ [] ∧
  Forall (fun t => title t ≠ []) (techs data).
Proof.
  unfold issues_of, email_schema, password_schema, techs_schema,
    check_email, check_nonempty, check_min.
  cbn [fst]. split.
  - intros H.
    repeat match goal with
           | H : _ ++ _ = [] |- _ => apply app_eq_nil in H as [? ?]
           end.
    destruct (name data), (email data), (isEmail _), (techs data);
      try done.
    destruct (length (password data) <? 6) eqn:Hp; [done|].
    apply Nat.ltb_ge in Hp.
    repeat split; try done. by apply tech_rows_nil_inv.
  - intros (Hn & He & Hm & Hp & Ht & Hts).
    rewrite Hm, tech_rows_nil by done.
    rewrite (proj2 (Nat.ltb_ge _ 6) Hp).
    rewrite (proj2 (Nat.ltb_ge (length (password data)) 1)) by lia.
    by destruct (name data), (email data), (techs data).
Qed.

(** What a run hands back when the transform accepts the name. *)
Lemma validate_Values_inv data r :
  validate h isEmail data = Normal (Values r) →
  well_formed h isEmail data ∧ r = parsed_of h data.
Proof.
  intros Hv.
  assert (name_accepted h (name data)) as Hn.
  { apply validate_returns_iff with isEmail. by eexists. }
  rewrite validate_accepted in Hv by done.
  destruct (issues_of h isEmail data) eqn:Hi; [|done].
  injection Hv as <-. split; [|done].
  apply issues_of_nil in Hi as (Hne & He & Hm & Hp & Ht & Hts).
  destruct Hn as [Hn|Hn]; [done|]. by repeat split.
Qed.

Lemma validate_well_formed data :
  well_formed h isEmail data →
  validate h isEmail data = Normal (Values (parsed_of h data)).
Proof.
  intros (Hn & He & Hm & Hp & Ht & Hts).
  rewrite validate_accepted by (by right).
  assert (issues_of h isEmail data = []) as ->; [|done].
  apply issues_of_nil. repeat split; try done.
  intros Hnil. rewrite Hnil in Hn. by destruct (name_words_nil h Hn).
Qed.

Lemma validate_Errors_inv data errors :
  validate h isEmail data = Normal (Errors errors) →
  ∃ i issues, issues_of h isEmail data = i :: issues ∧
              errors = parseErrorSchema (i :: issues).
Proof.
  intros Hv.
  assert (name_accepted h (name data)) as Hn.
  { apply validate_returns_iff with isEmail. by eexists. }
  rewrite validate_accepted in Hv by done.
  destruct (issues_of h isEmail data) as [|i issues]; [done|].
  injection Hv as <-. by exists i, issues.
Qed.

End Reports.

(** ** Names on which every host agrees *)

Section Plain.

Variable h : Host.

Lemma name_words_plain n :
  plain_for_lower n = true →
  name_words h n = name_words ascii_host n.
Proof.
  intros Hn. unfold name_words. by rewrite (toLocaleLowerCase_ascii h).
Qed.

Lemma capitalize_plain w :
  plain_for_upper (take 1 w) = true → capitalize h w = capitalize ascii_host w.
Proof.
  destruct w as [|c r]; [done|]. intros Hc.
  unfold capitalize. cbn [charAt0 head].
  by rewrite (toLocaleUpperCase_ascii h).
Qed.

Lemma mapM_capitalize_plain ws :
  forallb (fun w => plain_for_upper (take 1 w)) ws = true →
  mapM (capitalize h) ws = mapM (capitalize ascii_host) ws.
Proof.
  induction ws as [|w ws IH]; [done|].
  cbn [forallb]. intros [Hw Hws]%andb_true_iff.
  cbn [mapM]. by rewrite capitalize_plain, IH.
Qed.

Lemma name_transform_plain n :
  plain_name n = true → name_transform h n = name_transform ascii_host n.
Proof.
  unfold plain_name. intros [Hn Hws]%andb_true_iff.
  unfold name_transform. rewrite name_words_plain by done.
  by rewrite mapM_capitalize_plain.
Qed.

(** On an ASCII name without the capital I and without a word that
    begins with the small i, and an ASCII e-mail, the run is the same on
    every host. *)
Lemma validate_plain isEmail data :
  plain_name (name data) = true → ascii_text (email data) = true →
  validate h isEmail data = validate ascii_host isEmail data.
Proof.
  intros Hn He.
  unfold validate, createUserSchema, name_schema, email_schema.
  rewrite name_transform_plain by done.
  by rewrite (toLowerCase_ascii h) by done.
Qed.

Lemma spec_word_plain w :
  plain_for_upper (take 1 w) = true → plain_for_lower (drop 1 w) = true →
  spec_word h w = spec_word ascii_host w.
Proof.
  destruct w as [|c r]; [done|]. cbn [take drop spec_word]. intros Hc Hr.
  by rewrite (toLocaleUpperCase_ascii h), (toLocaleLowerCase_ascii h).
Qed.

End Plain.

(** ** Validation *)

Section Validation.

Variable h : Host.
Variable isEmail : jsstring -> bool.

(** C1, as the code has it.  For every input whose name, lowercased and
    trimmed, splits at the space character into non-empty words, whose
    e-mail is non-empty and matches the pattern, whose password has at
    least 6 characters and whose tech list is non-empty with every title
    non-empty, [validate] succeeds; in the record it returns the name is
    those words, each with its first character uppercased, joined by
    single spaces, the e-mail is lowercased, and the password and the
    techs are the input's. *)
Theorem validate_well_formed_input data :
  Forall (fun w => w ≠ []) (name_words h (name data)) →
  email data ≠ [] →
  isEmail (email data) = true →
  6 ≤ length (password data) →
  techs data ≠ [] →
  Forall (fun t => title t ≠ []) (techs data) →
  validate h isEmail data =
    Normal (Values (mkData (normalized_name h (name data))
                           (toLowerCase h (email data))
                           (password data) (techs data))).
Proof.
  intros Hn He Hm Hp Ht Hts.
  rewrite validate_accepted by (by right).
  assert (issues_of h isEmail data = []) as ->; [|done].
  unfold issues_of, email_schema, password_schema, techs_schema,
    check_email, check_nonempty, check_min.
  cbn [fst]. rewrite Hm, tech_rows_nil by done.
  rewrite (proj2 (Nat.ltb_ge _ 6) Hp).
  rewrite (proj2 (Nat.ltb_ge (length (password data)) 1)) by lia.
  destruct (name data) as [|c n]; [by destruct (name_words_nil h Hn)|].
  destruct (email data) as [|c' e]; [done|].
  by destruct (techs data) as [|t ts].
Qed.


(** C5, as the code has it.  [validate] reports [EmptyField] on the name
    exactly when the name is the empty string. *)
Theorem validate_name_required data :
  reported (validate h isEmail data) path_name = Some EmptyField ↔
  name data = [].
Proof.
  split.
  - intros Hr.
    assert (name_accepted h (name data)) as Hn.
    { apply validate_returns_iff with isEmail. unfold returns.
      destruct (validate h isEmail data); [by eexists|done]. }
    rewrite reported_name in Hr by done. by case_decide.
  - intros Hn. rewrite reported_name by (by left). by rewrite decide_True.
Qed.

(** C6, as the code has it.  On every input on which [validate] returns,
    it reports [EmptyField] on the password exactly when it is the empty
    string, [TooShort] exactly when it is non-empty and shorter than 6
    characters, and nothing when it has 6 characters or more. *)
Theorem validate_password_rule data :
  returns (validate h isEmail data) →
  (reported (validate h isEmail data) path_password = Some EmptyField ↔
     password data = []) ∧
  (reported (validate h isEmail data) path_password = Some TooShort ↔
     password data ≠ [] ∧ length (password data) < 6) ∧
  (6 ≤ length (password data) →
     reported (validate h isEmail data) path_password = None).
Proof.
  intros Hn%validate_returns_iff. rewrite reported_password by done.
  destruct (length (password data) <? 6) eqn:Hlen;
    [apply Nat.ltb_lt in Hlen|apply Nat.ltb_ge in Hlen];
    case_decide as Hp; try rewrite Hp in *; cbn [length] in *;
    (repeat split); intros; destruct_and?; try done; try lia.
Qed.

(** C7, as the code has it.  On every input on which [validate] returns,
    it reports [EmptyList] on [techs] exactly when the list has fewer
    than one entry, reports [EmptyField] on [techs.i.title] exactly at
    the indices whose title is the empty string, and reports nothing on a
    list of one or more entries whose titles are all non-empty. *)
Theorem validate_techs_rule data :
  returns (validate h isEmail data) →
  (reported (validate h isEmail data) path_techs = Some EmptyList ↔
     length (techs data) < 1) ∧
  (∀ i, reported (validate h isEmail data) (path_tech_title i) = Some EmptyField ↔
        ∃ t, techs data !! i = Some t ∧ title t = []) ∧
  (1 ≤ length (techs data) →
   Forall (fun t => title t ≠ []) (techs data) →
   reported (validate h isEmail data) path_techs = None ∧
   ∀ i, reported (validate h isEmail data) (path_tech_title i) = None).
Proof.
  intros Hn%validate_returns_iff. rewrite reported_techs by done.
  split; [|split].
  - destruct (techs data); cbn [length]; case_decide; split; try done; lia.
  - intros i. rewrite reported_tech_title by done.
    destruct (techs data !! i) as [t|]; cbn.
    + case_decide; split; try done; [by exists t|].
      by intros (t' & [= <-] & Ht).
    + split; [done|]. by intros (t & ? & _).
  - intros Hlen Hts. split.
    + destruct (techs data); cbn [length] in *; [lia|by case_decide].
    + intros i. rewrite reported_tech_title by done.
      destruct (techs data !! i) as [t|] eqn:Hi; cbn; [|done].
      rewrite decide_False; [done|].
      by eapply (Forall_lookup_1 _ _ _ _ Hts Hi).
Qed.

(** C8.  Whenever [validate] succeeds, the name and the e-mail of the
    record it returns are non-empty. *)
Theorem validate_success_not_empty data r :
  validate h isEmail data = Normal (Values r) →
  name r ≠ [] ∧ email r ≠ [].
Proof.
  intros [Hw ->]%validate_Values_inv. cbn [parsed_of name email].
  destruct Hw as (Hn & He & _). split.
  - by apply normalized_name_not_nil.
  - by apply toLowerCase_not_nil.
Qed.

End Validation.

(** ** The password meter, on one line *)


(** ** The tech rows *)

Lemma splice1_past_end {A} (l : list A) (start : Z) :
  (Z.of_nat (length l) ≤ start)%Z → splice1 start l = l.
Proof.
  intros Hs. unfold splice1.
  rewrite (proj2 (Z.ltb_ge _ _)) by lia.
  rewrite Z.min_r, Nat2Z.id by lia.
  rewrite delete_take_drop, firstn_all, skipn_all2 by lia.
  apply app_nil_r.
Qed.

Lemma splice1_in_bounds {A} (l : list A) (start : Z) :
  (0 ≤ start < Z.of_nat (length l))%Z →
  splice1 start l = take (Z.to_nat start) l ++ drop (S (Z.to_nat start)) l.
Proof.
  intros Hs. unfold splice1.
  rewrite (proj2 (Z.ltb_ge _ _)) by lia.
  rewrite Z.min_l by lia. apply delete_take_drop.
Qed.

(** C9, as the code has it.  For every form state, [removeTechRow] at an
    index greater than or equal to the number of tech entries leaves the
    sequence as it is; at an index within bounds it removes exactly the
    entry at that index and keeps the others in order.  The other fields
    are untouched. *)
Theorem removeTechRow_from_zero st (index : Z) :
  (0 ≤ index)%Z →
  ((Z.of_nat (length (techs st)) ≤ index)%Z →
     techs (removeTechRow index st) = techs st) ∧
  ((index < Z.of_nat (length (techs st)))%Z →
     techs (removeTechRow index st) =
       take (Z.to_nat index) (techs st) ++ drop (S (Z.to_nat index)) (techs st)) ∧
  name (removeTechRow index st) = name st ∧
  email (removeTechRow index st) = email st ∧
  password (removeTechRow index st) = password st.
Proof.
  intros H0. cbn [removeTechRow set_techs techs name email password].
  unfold remove. repeat split.
  - apply splice1_past_end.
  - intros Hlt. by apply splice1_in_bounds.
Qed.

(** [addNewTech] puts one row with an empty title behind the others and
    touches nothing else. *)
Lemma addNewTech_appends st :
  techs (addNewTech st) = techs st ++ [mkTech []] ∧
  name (addNewTech st) = name st ∧
  email (addNewTech st) = email st ∧
  password (addNewTech st) = password st.
Proof. done. Qed.

(** When the name is one the transform accepts, validation reports the
    empty title of the new row. *)
Lemma addNewTech_reported h isEmail st :
  name_accepted h (name st) →
  reported (validate h isEmail (addNewTech st))
           (path_tech_title (length (techs st))) = Some EmptyField.
Proof.
  intros Hn. rewrite reported_tech_title by done.
  cbn [addNewTech set_techs techs]. unfold append.
  by rewrite list_lookup_middle.
Qed.

Ltac all_words := vm_compute; repeat constructor; discriminate.
Ltac accept_name := right; all_words.

(** A run on a worked input is the same on every host. *)
Ltac on_every_host := rewrite validate_plain by reflexivity.

(** A run on a worked input whose name is accepted and whose e-mail the
    pattern accepts. *)
Ltac run_validate Hm :=
  on_every_host; rewrite validate_accepted by accept_name;
  unfold issues_of, email_schema, check_email; rewrite Hm; reflexivity.

(** ** The messages and the examples of the specification *)

(** The seven messages differ, so a field error names its rule. *)
Lemma message_text_inj m1 m2 : message_text m1 = message_text m2 → m1 = m2.
Proof. destruct m1, m2; (reflexivity || discriminate). Qed.

Example validate_empty_name h :
  reported (validate h emailPattern
              (mkData [] (str "john@example.com") (str "secret1")
                      [mkTech (str "Go")])) path_name = Some EmptyField.
Proof. by on_every_host. Qed.

Example validate_not_an_email h :
  reported (validate h emailPattern not_an_email) path_email = Some InvalidFormat.
Proof. by on_every_host. Qed.

Example validate_abc_password h :
  reported (validate h emailPattern short_password) path_password = Some TooShort.
Proof. by on_every_host. Qed.

Example validate_no_techs h :
  reported (validate h emailPattern
              (mkData (str "john") (str "john@example.com") (str "secret1") []))
           path_techs = Some EmptyList.
Proof. by on_every_host. Qed.

Example validate_all_wrong h :
  validate h emailPattern (mkData [] [] [] [mkTech []]) =
    Normal (Errors
      (<[path_name := mkFieldError too_small name_required]>
       (<[path_email := mkFieldError too_small email_required]>
        (<[path_password := mkFieldError too_small password_required]>
         {[path_tech_title 0 := mkFieldError too_small tech_title_required]})))).
Proof. on_every_host. by vm_compute. Qed.

(** The example of the specification, on every host. *)
Example validate_john_doe_every_host h :
  validate h emailPattern john_doe = Normal (Values John_Doe).
Proof. on_every_host. by vm_compute. Qed.

(** A name of one no-break space passes the length check, is trimmed to
    nothing, and the transform throws on its one empty word. *)
Example validate_no_break_space h isEmail :
  validate h isEmail no_break_space_name = Throw TypeError.
Proof.
  apply validate_rejected_name; [done|].
  unfold name_words. cbn [name no_break_space_name].
  rewrite (toLocaleLowerCase_white h) by done.
  intros Hw. by inversion Hw.
Qed.

(** ** The claims on the worked inputs *)

(** C1 on the example of the specification. *)
Lemma validate_john_doe :
  validate ascii_host emailPattern john_doe =
    Normal (Values (mkData (str "John Doe") (str "john@example.com")
                           (str "secret1") [mkTech (str "Go")])).
Proof.
  refine (validate_well_formed_input ascii_host emailPattern john_doe _ _ _ _ _ _).
  - all_words.
  - discriminate.
  - vm_compute; reflexivity.
  - vm_compute; lia.
  - discriminate.
  - all_words.
Defined.

Lemma spec_titleCase_john_tab_doe h :
  spec_titleCase h (name john_tab_doe) = str "John" ++ tab :: str "Doe".
Proof.
  change (spec_titleCase h (name john_tab_doe))
    with (spec_word h (str "john") ++ tab :: spec_word h (str "doe")).
  by rewrite !(spec_word_plain h).
Qed.


(** C1 as stated fails, on every host and for every e-mail pattern.  With
    a tab between the words of the name, and every premise of the claim
    met, [validate] succeeds with a name that is not the title case of
    the specification: the second word keeps its small initial.  With two
    spaces between the words it throws.  With a second tech entry of
    empty title, beside one with a title, it reports [EmptyField] on that
    entry. *)
Lemma validate_tab_in_name :
  (name john_tab_doe ≠ [] ∧
   6 ≤ length (password john_tab_doe) ∧
   (∃ t, t ∈ techs john_tab_doe ∧ title t ≠ []) ∧
   ∀ h isEmail, isEmail (email john_tab_doe) = true →
     spec_titleCase h (name john_tab_doe) = str "John" ++ tab :: str "Doe" ∧
     validate h isEmail john_tab_doe =
       Normal (Values (mkData (str "John" ++ tab :: str "doe")
                              (str "john@example.com") (str "secret1")
                              [mkTech (str "Go")])) ∧
     str "John" ++ tab :: str "doe" ≠ spec_titleCase h (name john_tab_doe)) ∧
  (name john_space_space_doe ≠ [] ∧
   6 ≤ length (password john_space_space_doe) ∧
   (∃ t, t ∈ techs john_space_space_doe ∧ title t ≠ []) ∧
   ∀ h isEmail, validate h isEmail john_space_space_doe = Throw TypeError) ∧
  (name second_title_empty ≠ [] ∧
   6 ≤ length (password second_title_empty) ∧
   (∃ t, t ∈ techs second_title_empty ∧ title t ≠ []) ∧
   ∀ h isEmail, isEmail (email second_title_empty) = true →
     reported (validate h isEmail second_title_empty) (path_tech_title 1)
       = Some EmptyField).
Proof.
  assert (∀ ts, ∃ t, t ∈ mkTech (str "Go") :: ts ∧ title t ≠ []) as Hgo.
  { intros ts. exists (mkTech (str "Go")).
    split; [apply list_elem_of_here|discriminate]. }
  split; [|split].
  - split; [discriminate|]. split; [vm_compute; lia|]. split; [apply Hgo|].
    intros h isEmail Hm. rewrite spec_titleCase_john_tab_doe.
    split; [reflexivity|]. split; [run_validate Hm|discriminate].
  - split; [discriminate|]. split; [vm_compute; lia|]. split; [apply Hgo|].
    intros h isEmail. by on_every_host.
  - split; [discriminate|]. split; [vm_compute; lia|]. split; [apply Hgo|].
    intros h isEmail Hm. on_every_host.
    by rewrite reported_tech_title by accept_name.
Qed.



(** C5 as stated fails, on every host and for every e-mail pattern.  A
    name of one space is blank, and [validate] reports no [EmptyField] on
    it: the check lets it through and the transform throws. *)
Lemma validate_space_name :
  blank (name space_name) = true ∧
  check_nonempty path_name name_required (name space_name) = [] ∧
  ∀ h isEmail,
    validate h isEmail space_name = Throw TypeError ∧
    reported (validate h isEmail space_name) path_name ≠ Some EmptyField.
Proof.
  split; [reflexivity|]. split; [reflexivity|].
  intros h isEmail. on_every_host. split; [reflexivity|discriminate].
Qed.

(** C6 on a password of three letters. *)
Lemma validate_short_password :
  returns (validate ascii_host emailPattern short_password) ∧
  reported (validate ascii_host emailPattern short_password) path_password
    = Some TooShort.
Proof.
  assert (returns (validate ascii_host emailPattern short_password)) as Hr
    by (by eexists).
  split; [exact Hr|].
  apply (validate_password_rule ascii_host emailPattern short_password Hr).
  split; [discriminate|vm_compute; lia].
Defined.

(** C6 as stated fails, on every host and for every e-mail pattern.  A
    password of three spaces is blank, and [validate] reports [TooShort]
    on it, not [EmptyField]; and next to a name with two spaces in a row
    an empty password is reported not at all, as [validate] throws. *)
Lemma validate_spaces_password :
  (blank (password spaces_password) = true ∧
   ∀ h isEmail,
     reported (validate h isEmail spaces_password) path_password = Some TooShort) ∧
  (password two_spaces_no_password = [] ∧
   ∀ h isEmail,
     validate h isEmail two_spaces_no_password = Throw TypeError ∧
     reported (validate h isEmail two_spaces_no_password) path_password = None).
Proof.
  split.
  - split; [reflexivity|]. intros h isEmail. on_every_host.
    by rewrite reported_password by accept_name.
  - split; [reflexivity|]. intros h isEmail. on_every_host.
    split; reflexivity.
Qed.

(** C7 on rows with an empty title at the indices 1 and 3. *)
Lemma validate_empty_titles :
  returns (validate ascii_host emailPattern empty_titles) ∧
  reported (validate ascii_host emailPattern empty_titles) (path_tech_title 1)
    = Some EmptyField ∧
  reported (validate ascii_host emailPattern empty_titles) (path_tech_title 3)
    = Some EmptyField.
Proof.
  assert (returns (validate ascii_host emailPattern empty_titles)) as Hr
    by (by eexists).
  split; [exact Hr|].
  split;
    apply (validate_techs_rule ascii_host emailPattern empty_titles Hr);
    by eexists.
Defined.

(** C7 as stated fails, on every host and for every e-mail pattern.  A
    title of one space is blank, and [validate] reports nothing on it;
    and next to a name with two spaces in a row an empty tech list is
    reported not at all, as [validate] throws. *)
Lemma validate_space_title :
  (blank (title (mkTech (str " "))) = true ∧
   techs space_title !! 0 = Some (mkTech (str " ")) ∧
   ∀ h isEmail,
     reported (validate h isEmail space_title) (path_tech_title 0) = None) ∧
  (length (techs two_spaces_no_techs) < 1 ∧
   ∀ h isEmail,
     validate h isEmail two_spaces_no_techs = Throw TypeError ∧
     reported (validate h isEmail two_spaces_no_techs) path_techs = None).
Proof.
  split.
  - split; [reflexivity|]. split; [reflexivity|]. intros h isEmail.
    on_every_host. by rewrite reported_tech_title by accept_name.
  - split; [vm_compute; lia|]. intros h isEmail. on_every_host.
    split; reflexivity.
Qed.

(** C8 on the example of the specification. *)
Lemma validate_john_doe_not_empty :
  validate ascii_host emailPattern john_doe =
    Normal (Values (mkData (str "John Doe") (str "john@example.com")
                           (str "secret1") [mkTech (str "Go")])) ∧
  str "John Doe" ≠ [] ∧ str "john@example.com" ≠ [].
Proof.
  split; [by vm_compute|].
  by apply (validate_success_not_empty ascii_host emailPattern john_doe
              (mkData (str "John Doe") (str "john@example.com")
                      (str "secret1") [mkTech (str "Go")])); vm_compute.
Defined.



(** C9 on the second of two rows. *)
Lemma removeTechRow_second_of_two :
  (0 ≤ 1)%Z ∧ (1 < Z.of_nat (length (techs two_rows)))%Z ∧
  techs (removeTechRow 1 two_rows) = [mkTech (str "Go")].
Proof.
  split; [lia|]. split; [vm_compute; reflexivity|].
  apply (removeTechRow_from_zero two_rows 1); [lia|vm_compute; reflexivity].
Defined.

(** C9 as stated fails.  At the index -1 the last of two rows goes. *)
Lemma removeTechRow_minus_one :
  (-1 < 0)%Z ∧
  techs (removeTechRow (-1) two_rows) = [mkTech (str "Go")] ∧
  techs (removeTechRow (-1) two_rows) ≠ techs two_rows.
Proof. split; [lia|]. split; [reflexivity|discriminate]. Qed.

(** C2.  On a name with two spaces in a row the transform meets an empty
    word, [word[0]] is [undefined], and [validate] throws a [TypeError]
    where it should return a record or field errors: on every host and
    for every e-mail pattern. *)
Theorem validate_throws_on_empty_word h isEmail :
  name_words h (name john_space_space_doe) = [str "john"; []; str "doe"] ∧
  capitalize h [] = Throw TypeError ∧
  validate h isEmail john_space_space_doe = Throw TypeError ∧
  ¬ returns (validate h isEmail john_space_space_doe).
Proof.
  split; [by rewrite name_words_plain|]. split; [reflexivity|].
  on_every_host. split; [reflexivity|].
  by intros [res Hres].
Qed.

(** C10.  [addNewTech] appends the row with the empty title, but with a
    name on which the transform throws validation reports nothing on the
    new row: the same [TypeError] comes out instead. *)
Theorem addNewTech_then_validate_throws h isEmail :
  techs (addNewTech john_space_space_doe) =
    techs john_space_space_doe ++ [mkTech []] ∧
  validate h isEmail (addNewTech john_space_space_doe) = Throw TypeError ∧
  reported (validate h isEmail (addNewTech john_space_space_doe))
           (path_tech_title 1) = None.
Proof.
  split; [reflexivity|]. on_every_host. split; reflexivity.
Qed.

(** * More of the schema *)

Section MoreValidation.

Variable h : Host.
Variable isEmail : jsstring -> bool.

(** X1.  On every input on which [validate] returns, it reports
    [EmptyField] on the e-mail exactly when it is the empty string,
    [InvalidFormat] exactly when it is non-empty and the pattern rejects
    it, and nothing on a non-empty e-mail the pattern accepts. *)
Theorem validate_email_rule data :
  returns (validate h isEmail data) →
  (reported (validate h isEmail data) path_email = Some EmptyField ↔
     email data = []) ∧
  (reported (validate h isEmail data) path_email = Some InvalidFormat ↔
     email data ≠ [] ∧ isEmail (email data) = false) ∧
  (email data ≠ [] → isEmail (email data) = true →
     reported (validate h isEmail data) path_email = None).
Proof.
  intros Hn%validate_returns_iff. rewrite reported_email by done.
  destruct (isEmail (email data)); case_decide; intuition congruence.
Qed.

(** X2.  A successful [validate] means every rule held: the name has no
    empty word, the e-mail is non-empty and matches the pattern, the
    password has 6 characters or more, there is a tech row and no title
    is empty; and the record is the input with the name normalized, the
    e-mail lowercased, and the password and the techs as they were. *)
Theorem validate_success_sound data r :
  validate h isEmail data = Normal (Values r) →
  Forall (fun w => w ≠ []) (name_words h (name data)) ∧
  email data ≠ [] ∧
  isEmail (email data) = true ∧
  6 ≤ length (password data) ∧
  techs data ≠ [] ∧
  Forall (fun t => title t ≠ []) (techs data) ∧
  r = mkData (normalized_name h (name data)) (toLowerCase h (email data))
             (password data) (techs data).
Proof.
  intros Hv. apply validate_Values_inv in Hv as [Hw ->].
  destruct Hw as (? & ? & ? & ? & ? & ?). by repeat split.
Qed.

(** X3.  A [validate] that fails names at least one field: the map of
    field errors is never empty, and some field has an error kind to
    show. *)
Theorem validate_failure_names_a_field data errors :
  validate h isEmail data = Normal (Errors errors) →
  errors ≠ ∅ ∧
  ∃ p k, reported (validate h isEmail data) p = Some k.
Proof.
  intros Hv. pose proof Hv as (i & issues & Hi & ->)%validate_Errors_inv.
  assert (parseErrorSchema (i :: issues) !! issue_path i
          = Some (to_field_error i)) as Hl.
  { rewrite parseErrorSchema_lookup. unfold first_at.
    rewrite filter_cons, decide_True by done. done. }
  split.
  - intros Hnil. by rewrite Hnil, lookup_empty in Hl.
  - exists (issue_path i), (message_kind (issue_message i)).
    rewrite Hv. cbn [reported]. by rewrite Hl.
Qed.

(** X4.  After [addNewTech] the form never validates, whatever the other
    fields hold: the run throws in the name transform, or it fails and
    reports [EmptyField] on the title of the new row. *)
Theorem addNewTech_never_valid st :
  validate h isEmail (addNewTech st) = Throw TypeError ∨
  ∃ errors,
    validate h isEmail (addNewTech st) = Normal (Errors errors) ∧
    reported (validate h isEmail (addNewTech st))
             (path_tech_title (length (techs st))) = Some EmptyField.
Proof.
  destruct (validate h isEmail (addNewTech st)) as [[r|errors]|[]] eqn:Hv.
  - apply validate_Values_inv in Hv as [Hw _].
    destruct Hw as (_ & _ & _ & _ & _ & Hts).
    cbn [addNewTech set_techs techs] in Hts. unfold append in Hts.
    apply Forall_app in Hts as [_ Hts]. by apply Forall_inv in Hts.
  - right. exists errors. split; [done|]. rewrite <- Hv.
    apply addNewTech_reported.
    apply (validate_returns_iff h isEmail (addNewTech st)). by eexists.
  - by left.
Qed.

End MoreValidation.

(** ** The password meter on every string *)

Lemma lookahead_any_app cls s t :
  lookahead_any cls s = true → lookahead_any cls (s ++ t) = true.
Proof.
  induction s as [|c r IH]; [done|]. cbn [app lookahead_any].
  destruct (cls c); [done|]. cbn [orb].
  destruct (isLineTerminator c); [done|]. exact IH.
Qed.

Lemma lookahead_dots_app n s t :
  lookahead_dots n s = true → lookahead_dots n (s ++ t) = true.
Proof.
  revert s. induction n as [|n IH]; intros [|c r]; try done.
  cbn [app lookahead_dots]. destruct (isLineTerminator c); [done|]. apply IH.
Qed.

Lemma strong_here_app s t : strong_here s = true → strong_here (s ++ t) = true.
Proof.
  unfold strong_here. rewrite !andb_true_iff.
  intros ((((H1 & H2) & H3) & H4) & H5).
  by rewrite !lookahead_any_app, lookahead_dots_app.
Qed.

Lemma regexp_test_app_r here s t :
  (∀ x, here x = true → here (x ++ t) = true) →
  regexp_test here s = true → regexp_test here (s ++ t) = true.
Proof.
  intros Hh. induction s as [|c r IH]; cbn [regexp_test app].
  - rewrite orb_false_r. intros H%Hh. cbn [app] in H.
    destruct t; cbn [regexp_test]; by rewrite H.
  - intros [H%Hh|H%IH]%orb_true_iff; apply orb_true_iff; [by left|by right].
Qed.

Lemma regexp_test_app_l here a s :
  regexp_test here s = true → regexp_test here (a ++ s) = true.
Proof.
  intros Hs. induction a as [|c a IH]; [done|].
  cbn [app regexp_test]. rewrite IH. apply orb_true_r.
Qed.




(** X10.  Typing more never turns a strong password weak: a password
    that holds a strong one in its middle is strong. *)
Theorem isPasswordStrong_extend a s b :
  isPasswordStrong s = true → isPasswordStrong (a ++ s ++ b) = true.
Proof.
  unfold isPasswordStrong. intros Hs.
  apply regexp_test_app_l, regexp_test_app_r; [|done].
  intros x. apply strong_here_app.
Qed.


(** ** Rows that come and go *)

Lemma splice1_delete {A} (l : list A) (i : nat) :
  i ≤ length l → splice1 (Z.of_nat i) l = delete i l.
Proof.
  intros Hi. unfold splice1.
  rewrite (proj2 (Z.ltb_ge _ _)) by lia.
  by rewrite Z.min_l, Nat2Z.id by lia.
Qed.

Lemma delete_length_app {A} (l : list A) x : delete (length l) (l ++ [x]) = l.
Proof. rewrite delete_middle. apply app_nil_r. Qed.

(** X12.  A row added and removed again, by its own button or by the
    index -1, leaves the form as it was. *)
Theorem addNewTech_removeTechRow st :
  removeTechRow (Z.of_nat (length (techs st))) (addNewTech st) = st ∧
  removeTechRow (-1) (addNewTech st) = st.
Proof.
  destruct st as [n e p ts].
  unfold removeTechRow, addNewTech, set_techs, remove, append.
  cbn [name email password techs]. split; f_equal.
  - rewrite splice1_delete by (rewrite length_app; lia).
    apply delete_length_app.
  - unfold splice1. rewrite length_app. cbn [length].
    replace (Z.max (Z.of_nat (length ts + 1) + -1) 0) with (Z.of_nat (length ts))
      by lia.
    cbn. rewrite Nat2Z.id. apply delete_length_app.
Qed.

(** X13.  Whatever the index, [removeTechRow] takes away at most one row
    and touches no other: what is left is a subsequence of the rows, as
    long as before when there was no row or the index is past the last
    one, and one shorter otherwise. *)
Theorem removeTechRow_at_most_one st (index : Z) :
  techs (removeTechRow index st) `sublist_of` techs st ∧
  length (techs (removeTechRow index st)) =
    if decide (techs st = [] ∨ (Z.of_nat (length (techs st)) ≤ index)%Z)
    then length (techs st)
    else length (techs st) - 1.
Proof.
  cbn [removeTechRow set_techs techs]. unfold remove, splice1.
  split; [apply sublist_delete|].
  case_decide as Hd.
  - destruct Hd as [->|Hge]; [done|].
    rewrite (proj2 (Z.ltb_ge _ _)) by lia.
    rewrite Z.min_r, Nat2Z.id by lia.
    by rewrite delete_take_drop, firstn_all, skipn_all2, app_nil_r by lia.
  - apply length_delete, lookup_lt_is_Some.
    assert (techs st ≠ [] ∧ (index < Z.of_nat (length (techs st)))%Z)
      as [Hne Hlt] by (split; [tauto|lia]).
    assert (0 < length (techs st)) by (destruct (techs st); [done|cbn; lia]).
    destruct (index <? 0)%Z eqn:Hneg; lia.
Qed.

(** X14.  The title errors follow their rows, on every input and at
    every index: after the remove button of row [i], what [validate]
    reports on the title at [j] is what it reported at [j] before for
    the rows above [i], and at [j + 1] for the others.  (When the run
    throws it does so before and after, and reports nothing.) *)
Theorem removeTechRow_shifts_title_errors h isEmail st (i j : nat) :
  reported (validate h isEmail (removeTechRow (Z.of_nat i) st)) (path_tech_title j) =
  reported (validate h isEmail st)
           (path_tech_title (if decide (j < i) then j else S j)).
Proof.
  destruct (validate h isEmail st) as [res|e] eqn:Hv.
  - assert (name_accepted h (name st)) as Hn.
    { apply (validate_returns_iff h isEmail). by eexists. }
    rewrite <- Hv, !reported_tech_title by done.
    cbn [removeTechRow set_techs techs]. unfold remove.
    destruct (decide (i ≤ length (techs st))) as [Hi|Hi].
    + rewrite splice1_delete by lia. case_decide.
      * by rewrite list_lookup_delete_lt.
      * by rewrite list_lookup_delete_ge by lia.
    + rewrite splice1_past_end by lia. case_decide; [done|].
      by rewrite !(lookup_ge_None_2 (techs st)) by lia.
  - apply validate_Throw in Hv as (-> & Hn & Hw).
    by rewrite (validate_rejected_name h isEmail (removeTechRow (Z.of_nat i) st)).
Qed.

(** ** The text of the output *)

Lemma hex_value_digit n : (n < 16)%N → hex_value (hex_digit n) = n.
Proof.
  intros Hn. unfold hex_value, hex_digit.
  destruct (n <? 10)%N eqn:H10.
  - apply N.ltb_lt in H10.
    rewrite (proj2 (N.ltb_lt (48 + n) 58)) by lia. lia.
  - apply N.ltb_ge in H10.
    rewrite (proj2 (N.ltb_ge (87 + n) 58)) by lia. lia.
Qed.

Lemma hex_digits_value c :
  (c < 65536)%N →
  (4096 * (c / 4096 mod 16) + 256 * (c / 256 mod 16) +
   16 * (c / 16 mod 16) + c mod 16 = c)%N.
Proof.
  intros Hc. zify. Z.to_euclidean_division_equations. lia.
Qed.

Lemma unicode_escape_code_unit c :
  ((c <? 32) || is_leading c || is_trailing c = true)%N → (c < 65536)%N.
Proof.
  unfold is_leading, is_trailing, between.
  rewrite !orb_true_iff, !andb_true_iff, N.ltb_lt, !N.leb_le. lia.
Qed.

Lemma json_unescape_unicode c x :
  (c < 65536)%N → json_unescape (unicode_escape c ++ x) = Some (c, x).
Proof.
  intros Hc.
  change (json_unescape (unicode_escape c ++ x))
    with (Some ((4096 * hex_value (hex_digit (c / 4096 mod 16)) +
                 256 * hex_value (hex_digit (c / 256 mod 16)) +
                 16 * hex_value (hex_digit (c / 16 mod 16)) +
                 hex_value (hex_digit (c mod 16)))%N, x)).
  rewrite !hex_value_digit by (by apply N.mod_lt).
  by rewrite hex_digits_value.
Qed.

Ltac escape_cases c :=
  unfold json_escape;
  repeat match goal with
         | |- context [(c =? ?k)%N] =>
             let H := fresh "Hc" in
             destruct (c =? k)%N eqn:H;
             [apply N.eqb_eq in H; subst c|]
         end.

Lemma json_unescape_escape c x : json_unescape (json_escape c ++ x) = Some (c, x).
Proof.
  escape_cases c; try reflexivity.
  destruct ((c <? 32)%N || is_leading c || is_trailing c) eqn:Hu.
  - by apply json_unescape_unicode, unicode_escape_code_unit.
  - cbn [app json_unescape]. by rewrite Hc5, Hc4.
Qed.

(** A quoted character never begins with the quote. *)
Lemma json_escape_head c :
  ∃ e r, json_escape c = e :: r ∧ (e =? 34)%N = false.
Proof.
  escape_cases c; try (by eexists _, _).
  destruct ((c <? 32)%N || is_leading c || is_trailing c); by eexists _, _.
Qed.

Lemma json_body_pair c d r :
  is_leading c && is_trailing d = true →
  json_body (c :: d :: r) = c :: d :: json_body r.
Proof.
  intros H.
  change (json_body (c :: d :: r))
    with (if is_leading c && is_trailing d then c :: d :: json_body r
          else json_escape c ++ json_body (d :: r)).
  by rewrite H.
Qed.

Lemma json_body_escape c d r :
  is_leading c && is_trailing d = false →
  json_body (c :: d :: r) = json_escape c ++ json_body (d :: r).
Proof.
  intros H.
  change (json_body (c :: d :: r))
    with (if is_leading c && is_trailing d then c :: d :: json_body r
          else json_escape c ++ json_body (d :: r)).
  by rewrite H.
Qed.

Lemma surrogate_raw c :
  is_leading c || is_trailing c = true →
  (c =? 34)%N = false ∧ (c =? 92)%N = false ∧ c ≠ line_feed.
Proof.
  unfold is_leading, is_trailing, between, line_feed.
  rewrite !orb_true_iff, !andb_true_iff, !N.leb_le, !N.eqb_neq. lia.
Qed.

Lemma json_read_escape fuel c x :
  json_read (S fuel) (json_escape c ++ x) =
    match json_read fuel x with
    | Some (xs, rest) => Some (c :: xs, rest)
    | None => None
    end.
Proof.
  pose proof (json_unescape_escape c x) as Hu.
  destruct (json_escape_head c) as (e & r & He & Hq).
  rewrite He in *. cbn [app json_read] in *. by rewrite Hq, Hu.
Qed.

Lemma json_read_raw fuel c x :
  (c =? 34)%N = false → (c =? 92)%N = false →
  json_read (S fuel) (c :: x) =
    match json_read fuel x with
    | Some (xs, rest) => Some (c :: xs, rest)
    | None => None
    end.
Proof. intros H34 H92. cbn [json_read json_unescape]. by rewrite H34, H92. Qed.

(** Reading gives the string back, and what follows its closing quote. *)
Lemma json_read_body n s fuel rest :
  length s ≤ n → length (json_body s) < fuel →
  json_read fuel (json_body s ++ quote :: rest) = Some (s, rest).
Proof.
  revert s fuel. induction n as [|n IH]; intros s fuel Hn Hf.
  { destruct s; [|cbn in Hn; lia]. destruct fuel; [cbn in Hf; lia|done]. }
  destruct s as [|c [|d r]].
  - destruct fuel; [cbn in Hf; lia|done].
  - cbn [json_body] in *. destruct fuel as [|fuel]; [lia|].
    rewrite json_read_escape.
    destruct fuel as [|fuel]; [|done].
    destruct (json_escape_head c) as (e & r & He & _).
    rewrite He in Hf. cbn in Hf. lia.
  - destruct (is_leading c && is_trailing d) eqn:Hp.
    + rewrite json_body_pair in * by done.
      apply andb_true_iff in Hp as [Hc Hd].
      destruct (surrogate_raw c) as (? & ? & _); [by rewrite Hc|].
      destruct (surrogate_raw d) as (? & ? & _); [by rewrite Hd, orb_true_r|].
      destruct fuel as [|[|fuel]]; cbn [length] in Hf; try lia.
      cbn [app]. rewrite !json_read_raw by done.
      rewrite IH; [done|cbn [length] in Hn; lia|lia].
    + rewrite json_body_escape in * by done.
      destruct fuel as [|fuel]; [lia|].
      rewrite <- app_assoc, json_read_escape.
      rewrite IH; [done|cbn [length] in *; lia|].
      destruct (json_escape_head c) as (e & r' & He & _).
      rewrite length_app, He in Hf. cbn [length] in Hf. lia.
Qed.

Lemma json_body_inj a b r1 r2 :
  json_body a ++ quote :: r1 = json_body b ++ quote :: r2 → a = b ∧ r1 = r2.
Proof.
  intros H.
  pose proof (json_read_body (length a) a
                (S (length (json_body a) + length (json_body b))) r1) as Ha.
  pose proof (json_read_body (length b) b
                (S (length (json_body a) + length (json_body b))) r2) as Hb.
  rewrite H, Hb in Ha by lia.
  specialize (Ha ltac:(lia) ltac:(lia)). by injection Ha as -> ->.
Qed.

Lemma json_quote_inj a b r1 r2 :
  json_quote a ++ r1 = json_quote b ++ r2 → a = b ∧ r1 = r2.
Proof.
  unfold json_quote. cbn [app]. rewrite <- !app_assoc. cbn [app].
  intros [= H]. by apply json_body_inj.
Qed.

Lemma json_tech_eq t :
  json_tech t = tech_open ++ json_quote (title t) ++ tech_close.
Proof. reflexivity. Qed.

Lemma join_cons_cons sep (w w' : jsstring) ws :
  join sep (w :: w' :: ws) = w ++ sep ++ join sep (w' :: ws).
Proof. reflexivity. Qed.

Lemma json_tech_inj t t' r r' :
  json_tech t ++ r = json_tech t' ++ r' → t = t' ∧ r = r'.
Proof.
  rewrite !json_tech_eq, <- !app_assoc.
  intros H%app_inv_head. apply json_quote_inj in H as [Ht H].
  apply app_inv_head in H.
  split; [|done]. destruct t, t'; cbn in Ht. by subst.
Qed.

Lemma json_rows_inj ts ts' r r' :
  ts ≠ [] → ts' ≠ [] →
  join tech_sep (map json_tech ts) ++ techs_end ++ r =
  join tech_sep (map json_tech ts') ++ techs_end ++ r' →
  ts = ts' ∧ r = r'.
Proof.
  revert ts'. induction ts as [|t ts IH]; intros [|t' ts'] Hne Hne' H; try done.
  destruct ts as [|u ts], ts' as [|u' ts']; cbn [map] in H;
    rewrite ?join_cons_cons, <- ?app_assoc in H; cbn [join] in H;
    apply json_tech_inj in H as [-> H].
  - apply app_inv_head in H. by subst.
  - discriminate.
  - discriminate.
  - apply app_inv_head in H.
    apply (IH (u' :: ts')) in H as [H ->]; [|done..]. by rewrite H.
Qed.

Lemma json_techs_cons t ts :
  json_techs (t :: ts) =
  techs_open ++ join tech_sep (map json_tech (t :: ts)) ++ techs_end.
Proof. reflexivity. Qed.

Lemma json_techs_inj ts ts' r r' :
  json_techs ts ++ r = json_techs ts' ++ r' → ts = ts' ∧ r = r'.
Proof.
  destruct ts as [|t ts], ts' as [|t' ts']; rewrite ?json_techs_cons.
  - by intros ->%app_inv_head.
  - discriminate.
  - discriminate.
  - rewrite <- !app_assoc. intros H%app_inv_head.
    by apply json_rows_inj in H.
Qed.

Lemma JSON_stringify_eq data :
  JSON_stringify data =
  json_open ++ json_quote (name data) ++
  json_email ++ json_quote (email data) ++
  json_password ++ json_quote (password data) ++
  json_techs_key ++ json_techs (techs data) ++ json_close.
Proof.
  unfold JSON_stringify. cbn [join].
  rewrite <- !app_assoc. reflexivity.
Qed.

(** X15.  The text of the output tells the record: two different
    records never print alike, whatever characters their fields hold. *)
Theorem JSON_stringify_injective d1 d2 :
  d1 ≠ d2 → JSON_stringify d1 ≠ JSON_stringify d2.
Proof.
  intros Hne H. apply Hne. rewrite !JSON_stringify_eq in H.
  apply app_inv_head, json_quote_inj in H as [Hn H].
  apply app_inv_head, json_quote_inj in H as [He H].
  apply app_inv_head, json_quote_inj in H as [Hp H].
  apply app_inv_head, json_techs_inj in H as [Ht _].
  destruct d1, d2; cbn in *. by subst.
Qed.











(** ** The output over a run of events *)

Section Runs.

Variable h : Host.
Variable isEmail : jsstring -> bool.

Lemma run_snoc st es e :
  run h isEmail st (es ++ [e]) = step h isEmail (run h isEmail st es) e.
Proof. unfold run. by rewrite foldl_app. Qed.

Lemma run_app st es es' :
  run h isEmail st (es ++ es') = run h isEmail (run h isEmail st es) es'.
Proof. unfold run. by rewrite foldl_app. Qed.

Lemma step_Submit_accepted st r :
  validate h isEmail (form st) = Normal (Values r) →
  step h isEmail st Submit = mkApp (form st) (JSON_stringify r).
Proof. intros Hv. cbn [step]. unfold handleSubmit. by rewrite Hv. Qed.

Lemma step_Submit_rejected st :
  (∀ r, validate h isEmail (form st) ≠ Normal (Values r)) →
  step h isEmail st Submit = st.
Proof.
  intros Hv. cbn [step]. unfold handleSubmit.
  destruct (validate h isEmail (form st)) as [[r|errors]|e]; try done.
  by destruct (Hv r).
Qed.

Lemma step_form st e : form (step h isEmail st e) = edit_form e (form st).
Proof.
  destruct e; try done. cbn [step edit_form]. unfold handleSubmit.
  by destruct (validate h isEmail (form st)) as [[r|errors]|e].
Qed.

Lemma rejected_throughout_nil st : rejected_throughout h isEmail st [].
Proof. intros pre post H. by destruct pre. Qed.

Lemma rejected_throughout_snoc st es e :
  rejected_throughout h isEmail st (es ++ [e]) ↔
  rejected_throughout h isEmail st es ∧
  (e = Submit → ∀ r, validate h isEmail (form (run h isEmail st es)) ≠ Normal (Values r)).
Proof.
  split.
  - intros H. split.
    + intros pre post ->. apply (H pre (post ++ [e])).
      by rewrite <- app_assoc.
    + intros ->. by apply (H es []).
  - intros [Hes He] pre post Heq.
    destruct post as [|x post _] using rev_ind.
    + apply app_inj_tail in Heq as [-> ->]. by apply He.
    + rewrite app_comm_cons, app_assoc in Heq.
      apply app_inj_tail in Heq as [-> _]. by apply (Hes pre post).
Qed.

Lemma run_rejected st es :
  rejected_throughout h isEmail st es →
  output (run h isEmail st es) = output st.
Proof.
  induction es as [|e es IH] using rev_ind; [done|].
  intros [Hes He]%rejected_throughout_snoc.
  rewrite run_snoc, <- (IH Hes).
  destruct e; try done.
  by rewrite step_Submit_rejected by (by apply He).
Qed.

(** X17.  What the output panel holds after any events.  If no
    submission among them validated, it holds what it held before:
    typing, adding and removing rows, submissions that fail and
    submissions in which the transform throws never change it.
    Otherwise it holds the text of the record that the last submission
    that validated returned, and the values submitted then met every
    rule.  One of the two is the case; and the values of the form are
    the edits applied in order, submissions leaving them as they are. *)
Theorem run_output st es :
  (rejected_throughout h isEmail st es →
     output (run h isEmail st es) = output st) ∧
  (∀ pre post r,
     es = pre ++ Submit :: post →
     validate h isEmail (form (run h isEmail st pre)) = Normal (Values r) →
     rejected_throughout h isEmail (run h isEmail st (pre ++ [Submit])) post →
     output (run h isEmail st es) = JSON_stringify r ∧
     well_formed h isEmail (form (run h isEmail st pre))) ∧
  (rejected_throughout h isEmail st es ∨
   ∃ pre post r,
     es = pre ++ Submit :: post ∧
     validate h isEmail (form (run h isEmail st pre)) = Normal (Values r) ∧
     rejected_throughout h isEmail (run h isEmail st (pre ++ [Submit])) post) ∧
  form (run h isEmail st es) = foldl (fun d e => edit_form e d) (form st) es.
Proof.
  split; [apply run_rejected|]. split; [|split].
  - intros pre post r -> Hv Hpost. split.
    + rewrite (cons_middle Submit), app_assoc, run_app, run_rejected by done.
      by rewrite run_snoc, (step_Submit_accepted _ r).
    + by apply validate_Values_inv in Hv as [Hw _].
  - induction es as [|e es IH] using rev_ind.
    { left. apply rejected_throughout_nil. }
    assert (e ≠ Submit ∨
            (∀ r, validate h isEmail (form (run h isEmail st es)) ≠ Normal (Values r)) ∨
            ∃ r, e = Submit ∧
                 validate h isEmail (form (run h isEmail st es)) = Normal (Values r))
      as [He|[He|(r & -> & Hv)]].
    { destruct e; try (by left).
      destruct (validate h isEmail (form (run h isEmail st es)))
        as [[r|errors]|x]; [right; right; by exists r|by right; left..]. }
    + destruct IH as [IH|(pre & post & r & -> & Hv & Hpost)].
      * left. by apply rejected_throughout_snoc.
      * right. exists pre, (post ++ [e]), r.
        split; [by rewrite <- app_assoc|]. split; [done|].
        by apply rejected_throughout_snoc.
    + destruct IH as [IH|(pre & post & r & -> & Hv & Hpost)].
      * left. by apply rejected_throughout_snoc.
      * right. exists pre, (post ++ [e]), r.
        split; [by rewrite <- app_assoc|]. split; [done|].
        apply rejected_throughout_snoc. split; [done|]. intros _.
        by rewrite <- run_app, <- app_assoc.
    + right. exists es, [], r. split; [done|]. split; [done|].
      apply rejected_throughout_nil.
  - induction es as [|e es IH] using rev_ind; [done|].
    by rewrite run_snoc, step_form, foldl_app, IH.
Qed.

End Runs.

(** The session: at its end the panel shows the record of the second
    successful submission, with its two rows. *)
Example run_session :
  output (run ascii_host emailPattern fresh_form session) =
    JSON_stringify John_Doe_Go_Rust ∧
  output (run turkic_host emailPattern fresh_form session) =
    JSON_stringify John_Doe_Go_Rust.
Proof. split; by vm_compute. Qed.

(** ** When the transform throws *)

Lemma split_first_empty sep s w ws :
  split sep s = w :: ws → (w = [] ↔ s = [] ∨ head s = Some sep).
Proof.
  destruct s as [|c r]; cbn [split head].
  - intros [= <- <-]. by split; [left|].
  - case_decide as Hc.
    + intros [= <- <-]. subst c. by split; [right|].
    + destruct (split sep r); intros [= <- <-];
        (split; [done|]); intros [[=]|[=]]; done.
Qed.

Lemma last_cons_Some {A} (c : A) r x :
  last (c :: r) = Some x ↔ (r = [] ∧ c = x) ∨ last r = Some x.
Proof.
  destruct r as [|c' r]; cbn [last].
  - split; [intros [= ->]; by left|]. intros [[_ ->]|[=]]. done.
  - split; [by right|]. by intros [[[=] _]|?].
Qed.

Lemma doubled_cons sep c r :
  doubled sep (c :: r) ↔ (c = sep ∧ head r = Some sep) ∨ doubled sep r.
Proof.
  split.
  - intros (a & b & H). destruct a as [|c' a]; injection H as -> ->.
    + by left.
    + right. by exists a, b.
  - intros [[-> Hr]|(a & b & ->)].
    + destruct r as [|c' r]; [done|]. injection Hr as ->. by exists [], r.
    + by exists (c :: a), b.
Qed.

Lemma split_tail_empty sep s :
  Exists (fun w => w = []) (tail (split sep s)) ↔
  last s = Some sep ∨ doubled sep s.
Proof.
  induction s as [|c r IH]; cbn [split].
  - cbn. rewrite Exists_nil. split; [done|].
    intros [[=]|(a & b & H)]. by destruct a.
  - rewrite last_cons_Some, doubled_cons.
    pose proof (split_not_nil sep r) as Hne.
    destruct (split sep r) as [|w ws] eqn:Hs; [done|].
    pose proof (split_first_empty sep r w ws Hs) as Hw.
    cbn [tail] in IH.
    case_decide as Hc; cbn [tail].
    + subst c. rewrite Exists_cons, IH, Hw. tauto.
    + rewrite IH. intuition congruence.
Qed.

Lemma not_all_nonempty (ws : list jsstring) :
  ¬ Forall (fun w => w ≠ []) ws ↔ Exists (fun w => w = []) ws.
Proof.
  induction ws as [|w ws IH]; [rewrite Exists_nil; intuition|].
  rewrite Forall_cons, Exists_cons, <- IH.
  destruct w; [intuition|].
  split; [intros H; right; intros Hws; by apply H|].
  intros [[=]|H] [_ Hws]. done.
Qed.

(** A piece is empty exactly when the text is empty, begins or ends
    with the separator, or holds two separators in a row. *)
Lemma split_has_empty sep s :
  ¬ Forall (fun w => w ≠ []) (split sep s) ↔
  s = [] ∨ head s = Some sep ∨ last s = Some sep ∨ doubled sep s.
Proof.
  rewrite not_all_nonempty.
  pose proof (split_tail_empty sep s) as Ht.
  pose proof (split_not_nil sep s) as Hne.
  destruct (split sep s) as [|w ws] eqn:Hs; [done|].
  pose proof (split_first_empty sep s w ws Hs) as Hw.
  cbn [tail] in Ht. rewrite Exists_cons, Ht, Hw. tauto.
Qed.

Lemma trimStart_trimEnd_trimStart s :
  trimStart (trimEnd (trimStart s)) = trimEnd (trimStart s).
Proof.
  induction s as [|c r IH]; [done|]. cbn [trimStart].
  destruct (isWhiteSpace c) eqn:Hc; [done|]. cbn [trimEnd].
  destruct (trimEnd r); rewrite ?Hc; cbn [trimStart]; by rewrite Hc.
Qed.

Lemma head_trimStart s c : head (trimStart s) = Some c → isWhiteSpace c = false.
Proof.
  induction s as [|c' r IH]; [done|]. cbn [trimStart].
  destruct (isWhiteSpace c') eqn:Hc; [done|]. by intros [= <-].
Qed.

Lemma head_trim s c : head (trim s) = Some c → isWhiteSpace c = false.
Proof.
  unfold trim. rewrite <- trimStart_trimEnd_trimStart. apply head_trimStart.
Qed.

Lemma last_trimEnd s c : last (trimEnd s) = Some c → isWhiteSpace c = false.
Proof.
  induction s as [|c' r IH]; [done|]. cbn [trimEnd].
  destruct (trimEnd r) as [|x l].
  - destruct (isWhiteSpace c') eqn:Hc; [done|]. by intros [= <-].
  - by rewrite last_cons_cons.
Qed.

Lemma last_trim s c : last (trim s) = Some c → isWhiteSpace c = false.
Proof. apply last_trimEnd. Qed.

Lemma trim_nil s : trim s = [] ↔ blank s = true.
Proof.
  unfold trim, blank. induction s as [|c r IH]; [done|].
  cbn [trimStart forallb]. destruct (isWhiteSpace c) eqn:Hc; [done|].
  cbn [trimEnd andb]. split; [|done].
  destruct (trimEnd r); [by rewrite Hc|done].
Qed.

(** X18.  [validate] throws exactly on the names that are not empty and
    whose lowercased form is, once trimmed, empty or holds two spaces in
    a row; the other fields have no say in it.  In particular it throws
    on every name that is not empty and is white space only. *)
Theorem validate_throws_iff h isEmail data :
  (validate h isEmail data = Throw TypeError ↔
     name data ≠ [] ∧
     (trim (toLocaleLowerCase h (name data)) = [] ∨
      doubled space (trim (toLocaleLowerCase h (name data))))) ∧
  (name data ≠ [] ∧ blank (name data) = true →
     validate h isEmail data = Throw TypeError).
Proof.
  assert (validate h isEmail data = Throw TypeError ↔
          name data ≠ [] ∧
          (trim (toLocaleLowerCase h (name data)) = [] ∨
           doubled space (trim (toLocaleLowerCase h (name data))))) as Hiff.
  { rewrite validate_Throw. unfold name_words. rewrite split_has_empty.
    pose proof (head_trim (toLocaleLowerCase h (name data)) space) as Hh.
    pose proof (last_trim (toLocaleLowerCase h (name data)) space) as Hl.
    split.
    - intros (_ & Hn & [H|[H|[H|H]]]); (split; [done|]);
        [by left|by apply Hh in H|by apply Hl in H|by right].
    - intros (Hn & [H|H]); (split; [done|]); (split; [done|]);
        [by left|by right; right; right]. }
  split; [exact Hiff|].
  intros [Hn Hb]. apply Hiff. split; [done|]. left.
  rewrite (toLocaleLowerCase_white h) by done. by apply trim_nil.
Qed.

(** X19.  On a name in ASCII without the capital I and without a word
    that begins with the small i, and an e-mail in ASCII, the locale and
    the engine have no say: [validate] gives what the ASCII tables
    give. *)
Theorem validate_same_on_every_host h isEmail data :
  plain_name (name data) = true → ascii_text (email data) = true →
  validate h isEmail data = validate ascii_host isEmail data.
Proof. apply validate_plain. Qed.

(** ** The added properties on the worked inputs *)

(** X1 on an e-mail without its at sign. *)
Lemma validate_email_rule_not_an_email :
  returns (validate ascii_host emailPattern not_an_email) ∧
  reported (validate ascii_host emailPattern not_an_email) path_email
    = Some InvalidFormat.
Proof.
  assert (returns (validate ascii_host emailPattern not_an_email)) as Hr
    by (by eexists).
  split; [exact Hr|].
  apply (validate_email_rule ascii_host emailPattern not_an_email Hr).
  split; [discriminate|reflexivity].
Defined.

(** X2 on the example of the specification. *)
Lemma validate_success_sound_john_doe :
  validate ascii_host emailPattern john_doe = Normal (Values John_Doe) ∧
  well_formed ascii_host emailPattern john_doe.
Proof.
  assert (validate ascii_host emailPattern john_doe = Normal (Values John_Doe))
    as Hv by (by vm_compute).
  split; [exact Hv|].
  destruct (validate_success_sound ascii_host emailPattern john_doe John_Doe Hv)
    as (? & ? & ? & ? & ? & ? & _).
  by repeat split.
Defined.

(** X3 on a password of three letters. *)
Lemma validate_failure_short_password :
  validate ascii_host emailPattern short_password =
    Normal (Errors {[path_password := mkFieldError too_small password_too_short]}) ∧
  ({[path_password := mkFieldError too_small password_too_short]}
     ≠ (∅ : gmap FieldPath FieldError)) ∧
  ∃ p k, reported (validate ascii_host emailPattern short_password) p = Some k.
Proof.
  split; [by vm_compute|].
  apply (validate_failure_names_a_field ascii_host emailPattern short_password).
  by vm_compute.
Defined.

(** X10 on the strong password of the specification, typed after a
    first line and before more text. *)
Lemma isPasswordStrong_extend_Abcdef1 :
  isPasswordStrong (str "Abcdef1!") = true ∧
  isPasswordStrong (str "ab" ++ line_feed :: str "Abcdef1!" ++ str " and more") = true.
Proof.
  split; [reflexivity|].
  by apply (isPasswordStrong_extend (str "ab" ++ [line_feed]) (str "Abcdef1!")
              (str " and more")).
Defined.


(** X14 on rows with an empty title at the indices 1 and 3: after the
    row 1 is removed, the error of the row 3 is on the row 2. *)
Example removeTechRow_shifts_empty_titles h :
  reported (validate h emailPattern (removeTechRow 1 empty_titles)) (path_tech_title 2)
    = Some EmptyField ∧
  reported (validate h emailPattern empty_titles) (path_tech_title 3)
    = Some EmptyField.
Proof. rewrite !(validate_plain h) by reflexivity. split; by vm_compute. Qed.

(** X15 on the example of the specification and its record. *)
Lemma JSON_stringify_injective_john_doe :
  john_doe ≠ John_Doe ∧ JSON_stringify john_doe ≠ JSON_stringify John_Doe.
Proof.
  split; [discriminate|].
  apply (JSON_stringify_injective john_doe John_Doe). discriminate.
Defined.

(** X19 on the example of the specification, in a Turkic locale. *)
Lemma validate_john_doe_turkic :
  plain_name (name john_doe) = true ∧ ascii_text (email john_doe) = true ∧
  validate turkic_host emailPattern john_doe = Normal (Values John_Doe).
Proof.
  split; [reflexivity|]. split; [reflexivity|].
  etrans; [by apply (validate_same_on_every_host turkic_host emailPattern john_doe)|].
  by vm_compute.
Defined.

(** Off those names the locale shows: the small i of [ian] rises to the
    dotted capital in a Turkic locale. *)
Example validate_ian_turkic :
  validate ascii_host emailPattern
    (mkData (str "ian") (str "ian@example.com") (str "secret1") [mkTech (str "Go")]) =
    Normal (Values (mkData (str "Ian") (str "ian@example.com") (str "secret1")
                           [mkTech (str "Go")])) ∧
  validate turkic_host emailPattern
    (mkData (str "ian") (str "ian@example.com") (str "secret1") [mkTech (str "Go")]) =
    Normal (Values (mkData (0x130%N :: str "an") (str "ian@example.com")
                           (str "secret1") [mkTech (str "Go")])).
Proof. split; by vm_compute. Qed.
